(** * MIRP benchmark: the answer parser and the scoring engine

    A shallow embedding of the two evaluation scripts

      - [3_evaluation_scrips/RQ1_RQ2_RQ3-2_calculate_results_image.py]
        (module [Image] below), and
      - [3_evaluation_scrips/RQ3-1_calculate_results_anatomy.py]
        (module [Anatomy] below),

    together with the properties their specification states.

    Text.  A Python [str] is modelled as a list of characters whose code
    points lie below 256 (Latin-1); [ascii] is used as the type of such code
    points.  The Unicode behaviour of [str.lower], [str.strip],
    [str.split], [str.splitlines] and of the [re] classes is written out
    for this range.

    Numbers.  Labels and expected answers are Python integers ([Z]); the
    counters are natural numbers; accuracy and F1 are exact rationals with a
    separate NaN; the standard deviation is a real number (a square root). *)

From Stdlib Require Import List String Ascii NArith ZArith QArith Qreduction.
From Stdlib Require Import Reals Qreals Lra Lia Psatz Bool Arith.
From stdpp Require Import gmap.
Import ListNotations.

#[local] Open Scope nat_scope.
#[local] Open Scope list_scope.

(** ** Text *)

Definition str := list ascii.

(** String literals of the scripts. *)
Definition py (s : string) : str := list_ascii_of_string s.

Definition code (c : ascii) : N := N_of_ascii c.

Definition in_range (lo hi n : N) : bool := ((lo <=? n) && (n <=? hi))%N.

(** [str.isspace] on one character, which is also the class [\s] of [re]:
    TAB, LF, VT, FF, CR, the separators 0x1C-0x1F, SPACE, NEL and NBSP. *)
Definition is_space (c : ascii) : bool :=
  let n := code c in
  in_range 9 13 n || in_range 28 32 n || (n =? 133)%N || (n =? 160)%N.

(** The line boundaries of [str.splitlines]. *)
Definition is_linebreak (c : ascii) : bool :=
  let n := code c in
  in_range 10 13 n || in_range 28 30 n || (n =? 133)%N.

(** [str.lower] on one character: A-Z, and the capital letters 0xC0-0xDE
    of Latin-1 except the multiplication sign 0xD7. *)
Definition lower_char (c : ascii) : ascii :=
  let n := code c in
  if in_range 65 90 n || (in_range 192 222 n && negb (n =? 215)%N)
  then ascii_of_N (n + 32) else c.

Definition lower (s : str) : str := List.map lower_char s.

Fixpoint lstrip (s : str) : str :=
  match s with
  | c :: s' => if is_space c then lstrip s' else s
  | [] => []
  end.

Definition rstrip (s : str) : str := rev (lstrip (rev s)).

(** [s.strip()] *)
Definition strip (s : str) : str := rstrip (lstrip s).

Fixpoint starts_with (p s : str) : bool :=
  match p, s with
  | [], _ => true
  | a :: p', b :: s' => Ascii.eqb a b && starts_with p' s'
  | _ :: _, [] => false
  end.

(** [p in s] *)
Fixpoint contains (p s : str) : bool :=
  match s with
  | [] => starts_with p []
  | _ :: s' => starts_with p s || contains p s'
  end.

(** [s.replace(p, e)] with the empty text [e], for a non-empty [p]: the
    occurrences of [p] are removed from left to right, without overlap.
    [skip] counts the characters of the occurrence being removed that are
    still to drop. *)
Fixpoint remove_from (p : str) (skip : nat) (s : str) : str :=
  match s with
  | [] => []
  | c :: s' =>
      match skip with
      | S k => remove_from p k s'
      | O => if starts_with p s then remove_from p (length p - 1) s'
             else c :: remove_from p 0 s'
      end
  end.

Definition remove_all (p s : str) : str := remove_from p 0 s.

(** [s.splitlines()]: [cur] is the line being read (reversed) and
    [after_cr] tells that the previous character was a CR, so that a LF
    that follows belongs to the same boundary. *)
Fixpoint splitlines_from (after_cr : bool) (cur : str) (s : str) : list str :=
  match s with
  | [] => match cur with [] => [] | _ => [rev cur] end
  | c :: s' =>
      if after_cr && (code c =? 10)%N then splitlines_from false cur s'
      else if is_linebreak c
           then rev cur :: splitlines_from (code c =? 13)%N [] s'
           else splitlines_from false (c :: cur) s'
  end.

Definition splitlines (s : str) : list str := splitlines_from false [] s.

(** [s.split()]: the maximal runs of non-blank characters. *)
Fixpoint split_from (cur : str) (s : str) : list str :=
  match s with
  | [] => match cur with [] => [] | _ => [rev cur] end
  | c :: s' =>
      if is_space c
      then match cur with [] => split_from [] s' | _ => rev cur :: split_from [] s' end
      else split_from (c :: cur) s'
  end.

Definition split_ws (s : str) : list str := split_from [] s.

(** ["_".join(parts)] *)
Fixpoint join_with (sep : str) (parts : list str) : str :=
  match parts with
  | [] => []
  | [p] => p
  | p :: ps => p ++ sep ++ join_with sep ps
  end.

(** [a == b] *)
Fixpoint str_eqb (a b : str) : bool :=
  match a, b with
  | [], [] => true
  | x :: a', y :: b' => Ascii.eqb x y && str_eqb a' b'
  | _, _ => false
  end.

(** ** Regular expressions

    The patterns of the scripts are written with combinators in
    continuation-passing style that follow the backtracking matcher of
    [re]: a matcher receives the rest of the input and the continuation
    for the rest of the pattern; a greedy repetition first tries to take
    one more character and falls back to the continuation, an alternation
    tries its branches from left to right. *)

Section Regex.
Context {A : Type}.

Definition K := str -> option A.

(** end of the pattern under [re.match] and [re.search] *)
Definition r_done (a : A) : K := fun _ => Some a.

(** end of the pattern under [re.fullmatch] *)
Definition r_eos (a : A) : K :=
  fun s => match s with [] => Some a | _ => None end.

(** [$] as last item: the end of the text, or just before a final LF *)
Definition r_dollar (a : A) : K :=
  fun s => match s with
           | [] => Some a
           | [c] => if (code c =? 10)%N then Some a else None
           | _ => None
           end.

(** [[cls]*], greedy *)
Fixpoint r_star (cls : ascii -> bool) (k : K) (s : str) : option A :=
  match s with
  | c :: s' =>
      if cls c
      then match r_star cls k s' with Some x => Some x | None => k s end
      else k s
  | [] => k []
  end.

(** [(t1|t2|...)] where the branches are literals; [ci] is [re.I].
    The continuation receives the text of the group. *)
Fixpoint r_tok (ci : bool) (toks : list str) (k : str -> K) (s : str)
  : option A :=
  match toks with
  | [] => None
  | t :: ts =>
      if starts_with t (if ci then lower s else s)
      then match k (firstn (length t) s) (skipn (length t) s) with
           | Some x => Some x
           | None => r_tok ci ts k s
           end
      else r_tok ci ts k s
  end.

(** a literal *)
Definition r_lit (ci : bool) (t : str) (k : K) : K :=
  r_tok ci [t] (fun _ => k).

(** [(?:t1|t2|...)?], greedy *)
Definition r_opt_tok (ci : bool) (toks : list str) (k : K) : K :=
  fun s => match r_tok ci toks (fun _ => k) s with
           | Some x => Some x
           | None => k s
           end.

(** [[cls]*], greedy, capturing: [acc] is the text taken so far *)
Fixpoint r_star_cap (cls : ascii -> bool) (k : str -> K) (acc : str)
  (s : str) : option A :=
  match s with
  | c :: s' =>
      if cls c
      then match r_star_cap cls k (acc ++ [c]) s' with
           | Some x => Some x
           | None => k acc s
           end
      else k acc s
  | [] => k acc []
  end.

(** [[cls]+], greedy, capturing *)
Definition r_plus_cap (cls : ascii -> bool) (k : str -> K) : K :=
  fun s => match s with
           | c :: s' => if cls c then r_star_cap cls k [c] s' else None
           | [] => None
           end.

(** [[cls]?], greedy, capturing *)
Definition r_opt_cap (cls : ascii -> bool) (k : str -> K) : K :=
  fun s => match s with
           | c :: s' =>
               if cls c
               then match k [c] s' with Some x => Some x | None => k [] s end
               else k [] s
           | [] => k [] []
           end.

(** [([cls]+?)], lazy, capturing: after each character the rest of
    the pattern is tried before one more character is taken *)
Fixpoint r_lazy_from (cls : ascii -> bool) (k : str -> K) (acc : str)
  (s : str) : option A :=
  match s with
  | c :: s' =>
      if cls c
      then match k (acc ++ [c]) s' with
           | Some x => Some x
           | None => r_lazy_from cls k (acc ++ [c]) s'
           end
      else None
  | [] => None
  end.

Definition r_lazy_plus_cap (cls : ascii -> bool) (k : str -> K) : K :=
  r_lazy_from cls k [].

(** [re.match] *)
Definition re_match (r : K) (s : str) : option A := r s.

(** [re.search]: the leftmost position at which the pattern matches *)
Fixpoint re_search (r : K) (s : str) : option A :=
  match r s with
  | Some x => Some x
  | None => match s with [] => None | _ :: s' => re_search r s' end
  end.
End Regex.

Arguments K : clear implicits.

(** The character classes of the patterns.  [dquote] is the double
    quote. *)
Definition dquote : ascii := ascii_of_N 34.

(** the class of opening brackets, quotes, full stop and blanks *)
Definition is_open (c : ascii) : bool :=
  existsb (Ascii.eqb c) (dquote :: py "([{'.") || is_space c.

(** the class of closing brackets, quotes, full stop and blanks *)
Definition is_close (c : ascii) : bool :=
  existsb (Ascii.eqb c) (dquote :: py ")]}'.") || is_space c.

(** the class [.!?] *)
Definition is_stop (c : ascii) : bool :=
  existsb (Ascii.eqb c) (py ".!?").

(** the class [^.!?] *)
Definition not_stop (c : ascii) : bool := negb (is_stop c).

(** the dot of a pattern without DOTALL: any character but LF *)
Definition not_newline (c : ascii) : bool := negb (code c =? 10)%N.

(** ** The direction fallback *)

Definition direction_pairs : list (str * str) :=
  [ (py "above", py "below"); (py "below", py "above");
    (py "left", py "right"); (py "right", py "left") ].

(** The loop of [parse_spatial_relation] over the pairs still to try. *)
Fixpoint scan_pairs (pairs : list (str * str)) (ql al : str) : option Z :=
  match pairs with
  | [] => None
  | (d, opp) :: rest =>
      if contains d ql then
        if contains d al then Some 1%Z
        else if contains opp al then Some 0%Z
        else scan_pairs rest ql al
      else scan_pairs rest ql al
  end.

Definition parse_spatial_relation (q a : str) : option Z :=
  scan_pairs direction_pairs (lower q) (lower a).

(** ** Pieces shared by the two copies of [parse_model_answer] *)

Definition LF : ascii := ascii_of_N 10.

(** [x in (a, b, ...)] for a value that may be [None] *)
Definition opt_in (x : option str) (l : list str) : bool :=
  match x with Some v => existsb (str_eqb v) l | None => false end.

(** [int(d)] on a string of decimal digits *)
Definition int (d : str) : Z :=
  fold_left (fun n c => (10 * n + (Z.of_N (code c) - 48))%Z) d 0%Z.

Definition digit_tokens : list str := [py "0"; py "1"].
Definition yesno_tokens : list str := [py "yes"; py "no"].
Definition answer_tokens : list str := [py "0"; py "1"; py "yes"; py "no"].

Definition answer_keywords : list str :=
  [py "answer"; py "correct answer"; py "final answer"; py "solution";
   py "response"].

(** [len(re.findall(r'[.!?]', txt))] *)
Definition count_stops (txt : str) : nat := length (List.filter is_stop txt).

(** The guard of the short-sentence tier. *)
Definition short_sentence (txt : str) : bool :=
  negb (contains [LF] txt) && (count_stops txt <=? 1) && (length txt <? 150).

(** The loop that removes every non-blank line of the prompt from the
    answer. *)
Definition strip_prompt (prompt txt : str) : str :=
  fold_left
    (fun cleaned l =>
       match strip l with
       | [] => cleaned
       | ls => remove_all ls cleaned
       end)
    (splitlines prompt) txt.

(** [re.search(r'[^.!?]+[.!?]?', cleaned)], giving [m.group(0)] *)
Definition first_clause (cleaned : str) : option str :=
  re_search
    (r_plus_cap not_stop (fun g => r_opt_cap is_stop (fun e => r_done (g ++ e))))
    cleaned.

(** The keyword pattern
    [(?:answer|correct answer|final answer|solution|response)(?: is|:)?\s*([10])]
    under [re.search] with [re.I], giving [m.group(1)] *)
Definition keyword_digit (cleaned : str) : option str :=
  re_search
    (r_tok true answer_keywords (fun _ =>
       r_opt_tok true [py " is"; py ":"]
         (r_star is_space (r_tok false [py "1"; py "0"] (fun g => r_done g)))))
    cleaned.

(** The end of [parse_model_answer], from the removal of the prompt
    lines on; it is the same text in both scripts. *)
Definition prompt_tiers (txt q prompt : str) : option Z * option str :=
  let cleaned := strip_prompt prompt txt in
  let by_clause :=
    match first_clause cleaned with
    | Some m => parse_spatial_relation q (strip m)
    | None => None
    end in
  match by_clause with
  | Some sr2 => (Some sr2, Some cleaned)
  | None =>
      match keyword_digit cleaned with
      | Some g => (Some (if str_eqb g (py "1") then 1%Z else 0%Z), Some cleaned)
      | None => (None, Some cleaned)
      end
  end.

(** The short-sentence tier followed by the rest. *)
Definition sentence_tiers (txt q prompt : str) : option Z * option str :=
  let rest := prompt_tiers txt q prompt in
  if short_sentence txt then
    match parse_spatial_relation q txt with
    | Some sr => (Some sr, None)
    | None => rest
    end
  else rest.

(** ** The image script *)

Module Image.

(** [sdigit]: [re.fullmatch] on [s.strip()] of the pattern
    open* (0|1) close*, where open and close are the classes [is_open]
    and [is_close]; the result is group 1. *)
Definition sdigit (s : str) : option str :=
  r_star is_open
    (r_tok false digit_tokens (fun g => r_star is_close (r_eos g)))
    (strip s).

(** [syesno]: the same with (yes|no) under [re.I]; the result is group 1
    in lower case. *)
Definition syesno (s : str) : option str :=
  option_map lower
    (r_star is_open
       (r_tok true yesno_tokens (fun g => r_star is_close (r_eos g)))
       (strip s)).

(** [se_token]: [re.match] of open* (0|1|yes|no) at the start and, when
    there is no match, [re.search] of (0|1|yes|no) close* [$]; both under
    [re.I], group 1 in lower case. *)
Definition se_token (s : str) : option str :=
  match re_match (r_star is_open (r_tok true answer_tokens (fun g => r_done g)))
          (strip s) with
  | Some g => Some (lower g)
  | None =>
      option_map lower
        (re_search
           (r_tok true answer_tokens (fun g => r_star is_close (r_dollar g)))
           (strip s))
  end.

(** The cascade: a digit, yes or no, a token at the start or at the end,
    then the tiers on sentences. *)
Definition parse_model_answer (ans q prompt : str) : option Z * option str :=
  let txt := strip ans in
  let d := sdigit txt in
  if opt_in d digit_tokens then (option_map int d, None)
  else
    let yn := syesno txt in
    if opt_in yn yesno_tokens
    then (Some (if opt_in yn [py "yes"] then 1%Z else 0%Z), None)
    else
      match se_token txt with
      | Some tok =>
          (Some (if existsb (str_eqb tok) [py "1"; py "yes"] then 1%Z else 0%Z),
           None)
      | None => sentence_tiers txt q prompt
      end.

End Image.

(** ** The anatomy script *)

Module Anatomy.

(** [sdigit]: [re.match] on [s.strip()] of the pattern
    [^] open* (0|1) close* [$]; the result is group 1. *)
Definition sdigit (s : str) : option str :=
  re_match
    (r_star is_open
       (r_tok false digit_tokens (fun g => r_star is_close (r_dollar g))))
    (strip s).

(** [syesno]: the same with (yes|no) under [re.I]; group 1 in lower
    case. *)
Definition syesno (s : str) : option str :=
  option_map lower
    (re_match
       (r_star is_open
          (r_tok true yesno_tokens (fun g => r_star is_close (r_dollar g))))
       (strip s)).

(** [se_token]: the match at the start or else the search at the end,
    joined by [or]; group 1 in lower case. *)
Definition se_token (s : str) : option str :=
  let t := strip s in
  let m :=
    match re_match (r_star is_open (r_tok true answer_tokens (fun g => r_done g))) t with
    | Some g => Some g
    | None =>
        re_search
          (r_tok true answer_tokens (fun g => r_star is_close (r_dollar g))) t
    end in
  option_map lower m.

(** The cascade.  The test [if (t := se_token(txt))] is the truth value
    of the token: an empty text would not count. *)
Definition parse_model_answer (ans q prompt : str) : option Z * option str :=
  let txt := strip ans in
  let d := sdigit txt in
  if opt_in d digit_tokens then (option_map int d, None)
  else
    let y := syesno txt in
    if opt_in y [py "yes"] then (Some 1%Z, None)
    else if opt_in y [py "no"] then (Some 0%Z, None)
    else
      match se_token txt with
      | Some [] => sentence_tiers txt q prompt
      | Some t =>
          (Some (if existsb (str_eqb t) [py "1"; py "yes"] then 1%Z else 0%Z),
           None)
      | None => sentence_tiers txt q prompt
      end.

End Anatomy.

(** ** Run files and metrics *)

(** One record of [results_call].  A missing [question] or
    [entire_prompt] is read as the empty text; [expected_answer] is [None]
    when the key is missing or null, and so are the object names. *)
Record QARecord := {
  question : str;
  model_answer : str;
  expected_answer : option Z;
  entire_prompt : str;
  object1_name : option str;
  object2_name : option str
}.

Record Entry := {
  file_name : str;
  results_call : list QARecord
}.

Definition RunFile := list Entry.

(** All records of a run file, in the order of the two nested loops. *)
Definition records (data : RunFile) : list QARecord :=
  concat (List.map results_call data).

(** A metric: a rational number, or the float NaN. *)
Inductive score := NaN | Num (q : Q).

(** [int(b)] *)
Definition int_of_bool (b : bool) : nat := if b then 1 else 0.

(** *** The two functions of [sklearn.metrics] the scripts call

    [accuracy_score(targs, preds)] is the mean of the element-wise
    equality of the two lists; on empty lists this is the mean of an empty
    array, NaN. *)
Definition count_where (f : Z -> Z -> bool) (targs preds : list Z) : nat :=
  length (List.filter (fun tp => f (fst tp) (snd tp)) (combine targs preds)).

Definition accuracy_score (targs preds : list Z) : score :=
  match targs with
  | [] => NaN
  | _ => Num (Qred (Z.of_nat (count_where Z.eqb targs preds)
                    # Pos.of_nat (length targs)))
  end.

(** A quotient of counts where a zero denominator gives 0
    ([zero_division=0]). *)
Definition ratio0 (num den : nat) : Q :=
  if den =? 0 then 0%Q else Qred (Z.of_nat num # Pos.of_nat den).

(** The distinct labels of the two lists. *)
Definition labels_of (targs preds : list Z) : list Z :=
  nodup Z.eq_dec (targs ++ preds).

(** [f1_score(targs, preds, zero_division=0)] with the defaults
    [average='binary'] and [pos_label=1]: twice the true positives over
    the predicted plus the actual positives.  It raises [ValueError]
    ([None]) when more than two labels occur, or when two labels occur and
    neither is 1. *)
Definition f1_score (targs preds : list Z) : option score :=
  let labels := labels_of targs preds in
  if (2 <? length labels)
     || ((length labels =? 2) && negb (existsb (Z.eqb 1) labels))
  then None
  else
    let tp := count_where (fun t p => Z.eqb t 1 && Z.eqb p 1) targs preds in
    let true_pos := count_where (fun t _ => Z.eqb t 1) targs preds in
    let pred_pos := count_where (fun _ p => Z.eqb p 1) targs preds in
    Some (Num (ratio0 (2 * tp) (true_pos + pred_pos))).

Module ImageRun.
Import Image.

Record RunMetrics := {
  accuracy : score;
  f1 : score;
  correct_count : nat;
  incorrect_count : nat;
  unsure_count : nat
}.

(** The variables of the loop of [evaluate_run]. *)
Record EvalState := {
  preds : list Z;
  targs : list Z;
  correct : nat;
  incorrect : nat;
  unsure : nat
}.

Definition init_state : EvalState :=
  {| preds := []; targs := []; correct := 0; incorrect := 0; unsure := 0 |}.

(** The label that is scored for a record whose expected answer is
    [exp], and whether the record counts as unsure. *)
Definition predicted (call : QARecord) (exp : Z) : Z * bool :=
  match fst (parse_model_answer (model_answer call) (question call)
               (entire_prompt call)) with
  | None => ((1 - exp)%Z, true)
  | Some pred => (pred, false)
  end.

(** The body of the inner loop.  A record without an integer
    [expected_answer] makes the script fail ([None]). *)
Definition eval_call (st : EvalState) (call : QARecord) : option EvalState :=
  match expected_answer call with
  | None => None
  | Some exp =>
      let (pred, is_unsure) := predicted call exp in
      let hit := Z.eqb pred exp in
      Some {| preds := preds st ++ [pred];
              targs := targs st ++ [exp];
              correct := correct st + int_of_bool hit;
              incorrect := incorrect st + int_of_bool (negb hit);
              unsure := unsure st + int_of_bool is_unsure |}
  end.

Definition eval_calls (st : option EvalState) (calls : list QARecord)
  : option EvalState :=
  fold_left
    (fun st call => match st with Some s => eval_call s call | None => None end)
    calls st.

(** The two nested loops. *)
Definition evaluate_loop (data : RunFile) : option EvalState :=
  fold_left (fun st entry => eval_calls st (results_call entry)) data
    (Some init_state).

Definition evaluate_run (data : RunFile) : option RunMetrics :=
  match evaluate_loop data with
  | None => None
  | Some st =>
      let acc := accuracy_score (targs st) (preds st) in
      match f1_score (targs st) (preds st) with
      | None => None
      | Some f => Some {| accuracy := acc;
                          f1 := f;
                          correct_count := correct st;
                          incorrect_count := incorrect st;
                          unsure_count := unsure st |}
      end
  end.

End ImageRun.

(** ** The anatomy view *)

(** The centres of the labelled structures: file name, then canonical
    structure name, then (x, y). *)
Definition CentreMap := gmap str (gmap str (Q * Q)).

(** [x < y] on coordinates *)
Definition Qltb (x y : Q) : bool := negb (Qle_bool y x).

Definition canon_name (name : str) : str :=
  let name := strip (lower name) in
  match split_ws name with
  | [] => name
  | p0 :: rest =>
      if existsb (str_eqb p0) [py "left"; py "right"]
      then join_with (py "_") rest ++ py "_" ++ p0
      else join_with (py "_") (p0 :: rest)
  end.

(** The pattern [is the (.+?) to the (left|right) of the (.+?)\?] under
    [re.I]; the result is (group 1, group 3). *)
Definition object_pattern : K (str * str) :=
  r_lit true (py "is the ")
    (r_lazy_plus_cap not_newline (fun g1 =>
       r_lit true (py " to the ")
         (r_tok true [py "left"; py "right"] (fun _ =>
            r_lit true (py " of the ")
              (r_lazy_plus_cap not_newline (fun g3 =>
                 r_lit false (py "?") (r_done (g1, g3)))))))).

(** [not obj] for a name that may be missing *)
Definition falsy (o : option str) : bool :=
  match o with Some (_ :: _) => false | _ => true end.

(** The object names of a record: the two fields, or, when one of them is
    missing or empty, the groups of the pattern found in the question. *)
Definition object_names (r : QARecord) : option str * option str :=
  let obj1 := object1_name r in
  let obj2 := object2_name r in
  if falsy obj1 || falsy obj2 then
    match re_search object_pattern (question r) with
    | Some (g1, g3) => (Some (strip g1), Some (strip g3))
    | None => (obj1, obj2)
    end
  else (obj1, obj2).

(** The x-coordinates of the two objects in the image [fn], when the
    image and both canonical names are in the centre map. *)
Definition centres_of (centre_map : CentreMap) (fn : str)
  (objs : option str * option str) : option (Q * Q) :=
  match centre_map !! fn, objs with
  | Some cm, (Some (c1 :: o1), Some (c2 :: o2)) =>
      match cm !! canon_name (c1 :: o1), cm !! canon_name (c2 :: o2) with
      | Some (cx1, _), Some (cx2, _) => Some (cx1, cx2)
      | _, _ => None
      end
  | _, _ => None
  end.

(** The ground truth [real] derived from the two x-coordinates. *)
Definition anatomy_truth (q : str) (cx1 cx2 : Q) : Z :=
  if (contains (py " to the left of ") (lower q) && Qltb cx2 cx1)
     || (contains (py " to the right of ") (lower q) && Qltb cx1 cx2)
  then 1%Z else 0%Z.

Module AnatomyRun.
Import Anatomy.

Record RunMetrics := {
  anat_acc : score;
  anat_f1 : score;
  anat_correct : nat;
  anat_incorrect : nat;
  anat_total : nat;
  img_acc : score;
  img_f1 : score;
  img_correct : nat;
  img_incorrect : nat;
  img_total : nat
}.

(** The variables of the loop of [eval_run]. *)
Record EvalState := {
  anat_preds : list Z;
  anat_targs : list Z;
  img_preds : list Z;
  img_targs : list Z;
  anat_corr : nat;
  anat_wrong : nat;
  anat_tot : nat;
  img_corr : nat;
  img_wrong : nat;
  img_tot : nat
}.

Definition init_state : EvalState :=
  {| anat_preds := []; anat_targs := []; img_preds := []; img_targs := [];
     anat_corr := 0; anat_wrong := 0; anat_tot := 0;
     img_corr := 0; img_wrong := 0; img_tot := 0 |}.

(** Only the questions about left and right are evaluated. *)
Definition in_subset (q : str) : bool :=
  contains (py "left") (lower q) || contains (py "right") (lower q).

(** The label [pa] that is scored. *)
Definition predicted (r : QARecord) : Z :=
  match fst (parse_model_answer (model_answer r) (question r)
               (entire_prompt r)) with
  | Some pa => pa
  | None =>
      (1 - match expected_answer r with Some e => e | None => 1 end)%Z
  end.

(** The image view of one record. *)
Definition image_view (st : EvalState) (r : QARecord) (pa : Z) : EvalState :=
  match expected_answer r with
  | None => st
  | Some exp =>
      let hit := Z.eqb pa exp in
      {| anat_preds := anat_preds st; anat_targs := anat_targs st;
         img_preds := img_preds st ++ [pa];
         img_targs := img_targs st ++ [exp];
         anat_corr := anat_corr st; anat_wrong := anat_wrong st;
         anat_tot := anat_tot st;
         img_corr := img_corr st + int_of_bool hit;
         img_wrong := img_wrong st + int_of_bool (negb hit);
         img_tot := img_tot st + 1 |}
  end.

(** The anatomy view of one record. *)
Definition anatomy_view (centre_map : CentreMap) (fn : str)
  (st : EvalState) (r : QARecord) (pa : Z) : EvalState :=
  match centres_of centre_map fn (object_names r) with
  | None => st
  | Some (cx1, cx2) =>
      let real := anatomy_truth (question r) cx1 cx2 in
      let hit := Z.eqb pa real in
      {| anat_preds := anat_preds st ++ [pa];
         anat_targs := anat_targs st ++ [real];
         img_preds := img_preds st; img_targs := img_targs st;
         anat_corr := anat_corr st + int_of_bool hit;
         anat_wrong := anat_wrong st + int_of_bool (negb hit);
         anat_tot := anat_tot st + 1;
         img_corr := img_corr st; img_wrong := img_wrong st;
         img_tot := img_tot st |}
  end.

(** The body of the inner loop. *)
Definition eval_record (centre_map : CentreMap) (fn : str)
  (st : EvalState) (r : QARecord) : EvalState :=
  if in_subset (question r) then
    let pa := predicted r in
    anatomy_view centre_map fn (image_view st r pa) r pa
  else st.

Definition eval_loop (centre_map : CentreMap) (data : RunFile) : EvalState :=
  fold_left
    (fun st entry =>
       fold_left (eval_record centre_map (file_name entry))
         (results_call entry) st)
    data init_state.

(** [score(targs, preds) if targs else float('nan')]; a [ValueError] of
    [f1_score] is [None]. *)
Definition guarded (f : list Z -> list Z -> option score)
  (targs preds : list Z) : option score :=
  match targs with [] => Some NaN | _ => f targs preds end.

Definition eval_run (centre_map : CentreMap) (data : RunFile)
  : option RunMetrics :=
  let st := eval_loop centre_map data in
  let acc t p := Some (accuracy_score t p) in
  match guarded acc (anat_targs st) (anat_preds st),
        guarded f1_score (anat_targs st) (anat_preds st),
        guarded acc (img_targs st) (img_preds st),
        guarded f1_score (img_targs st) (img_preds st) with
  | Some aa, Some af, Some ia, Some if1 =>
      Some {| anat_acc := aa; anat_f1 := af;
              anat_correct := anat_corr st;
              anat_incorrect := anat_wrong st;
              anat_total := anat_tot st;
              img_acc := ia; img_f1 := if1;
              img_correct := img_corr st;
              img_incorrect := img_wrong st;
              img_total := img_tot st |}
  | _, _, _, _ => None
  end.

End AnatomyRun.

(** ** Aggregation over the runs of an experiment *)

(** *** The two functions of [statistics] the scripts call, on numbers

    [mean] and [stdev] compute with exact fractions; the square root is
    taken in the reals.  [None] is [StatisticsError]. *)
Definition Qsum (x : list Q) : Q := fold_right Qplus 0%Q x.

Definition Qlen (x : list Q) : Q := inject_Z (Z.of_nat (length x)).

Definition mean (x : list Q) : option Q :=
  match x with
  | [] => None
  | _ => Some (Qred (Qsum x / Qlen x))
  end.

(** The sum of the squared deviations from [m]. *)
Definition sum_sq_dev (m : Q) (x : list Q) : Q :=
  Qsum (List.map (fun v => (v - m) * (v - m))%Q x).

(** [variance]: the sample variance, for at least two data points *)
Definition variance (x : list Q) : option Q :=
  if length x <? 2 then None
  else match mean x with
       | Some m => Some (Qred (sum_sq_dev m x / (Qlen x - 1)))
       | None => None
       end.

Definition stdev (x : list Q) : option R :=
  match variance x with
  | Some v => Some (sqrt (Q2R v))
  | None => None
  end.


Definition safe_stdev (x : list Q) : option R :=
  if 1 <? length x then stdev x else Some 0%R.

(** The numbers of a list of metrics; [None] when one of them is NaN. *)
Fixpoint numbers (l : list score) : option (list Q) :=
  match l with
  | [] => Some []
  | Num q :: l' =>
      match numbers l' with Some qs => Some (q :: qs) | None => None end
  | NaN :: _ => None
  end.

Module ImageAggregate.
Import ImageRun.

Record Aggregated := {
  accuracy_mean : Q;
  accuracy_std : R;
  f1_mean : Q;
  f1_std : R
}.

(** The aggregation of [process_runs] once the runs are evaluated.
    [None] is an exception of [statistics]; it also stands for metrics
    that are NaN (a run file without records), on which the outcome of
    [statistics] is not modelled. *)
Definition aggregate (run_metrics : list RunMetrics) : option Aggregated :=
  match numbers (List.map accuracy run_metrics),
        numbers (List.map f1 run_metrics) with
  | Some accs, Some f1s =>
      match mean accs, safe_stdev accs, mean f1s, safe_stdev f1s with
      | Some am, Some asd, Some fm, Some fsd =>
          Some {| accuracy_mean := am; accuracy_std := asd;
                  f1_mean := fm; f1_std := fsd |}
      | _, _, _, _ => None
      end
  | _, _ => None
  end.

(** [[evaluate_run(fp) for fp in run_files]] *)
Fixpoint evaluate_all (run_files : list RunFile) : option (list RunMetrics) :=
  match run_files with
  | [] => Some []
  | fp :: rest =>
      match evaluate_run fp, evaluate_all rest with
      | Some rm, Some rms => Some (rm :: rms)
      | _, _ => None
      end
  end.

Definition process_runs (run_files : list RunFile)
  : option (Aggregated * list RunMetrics) :=
  match evaluate_all run_files with
  | Some run_metrics =>
      match aggregate run_metrics with
      | Some aggregated => Some (aggregated, run_metrics)
      | None => None
      end
  | None => None
  end.

End ImageAggregate.

(** ** Grouping the run files by their base name *)

(** [os.path.basename]: what follows the last slash. *)
Fixpoint basename_from (cur : str) (p : str) : str :=
  match p with
  | [] => rev cur
  | c :: p' =>
      if Ascii.eqb c "/"%char then basename_from [] p'
      else basename_from (c :: cur) p'
  end.

Definition basename (p : str) : str := basename_from [] p.

(** the class [\d] *)
Definition is_digit (c : ascii) : bool := in_range 48 57 (code c).

(** [[cls]+], greedy *)
Definition r_plus {A : Type} (cls : ascii -> bool) (k : K A) : K A :=
  fun s => match s with
           | c :: s' => if cls c then r_star cls k s' else None
           | [] => None
           end.

(** The pattern of the run files under [re.I], matched at the start of a
    file name: [^], a greedy group 1 of any characters but LF, then
    [_run_], one digit or more, [.json] and [$]; the result is group 1.
    The anatomy script writes the digits as a group of their own, which
    does not change group 1. *)
Definition run_pattern : K str :=
  r_star_cap not_newline
    (fun g => r_lit true (py "_run_")
                (r_plus is_digit (r_lit true (py ".json") (r_dollar g))))
    [].

(** [pat.match(os.path.basename(fp))], then [.group(1)] *)
Definition base_of (fp : str) : option str :=
  re_match run_pattern (basename fp).

(** [grouped.setdefault(base, []).append(fp)] *)
Definition add_to_group (grouped : gmap str (list str)) (base fp : str)
  : gmap str (list str) :=
  <[ base := default [] (grouped !! base) ++ [fp] ]> grouped.

(** [group_by_base] of the image script, and the grouping loop in [main]
    of the anatomy script.  A file whose name does not fit the pattern
    makes the first fail with [AttributeError] and the second with
    [RuntimeError]: [None].  The dictionary is a finite map; the order of
    its keys, which only orders the output files, is not kept. *)
Definition group_by_base (files : list str) : option (gmap str (list str)) :=
  fold_left
    (fun grouped fp =>
       match grouped, base_of fp with
       | Some g, Some base => Some (add_to_group g base fp)
       | _, _ => None
       end)
    files (Some ∅).

(** ** Loading the centres *)

(** One labelled structure of the centres file, and one entry of the
    file; a missing [label_info] is the empty list. *)
Record LabelInfo := {
  class_name : str;
  center_x : Q;
  center_y : Q
}.

Record CentreEntry := {
  filename : str;
  label_info : list LabelInfo
}.

(** The dictionary comprehension over the labels of one entry. *)
Definition labels_map (labels : list LabelInfo) : gmap str (Q * Q) :=
  fold_left
    (fun m li => <[ class_name li := (center_x li, center_y li) ]> m)
    labels ∅.

(** [load_centres], after [json.load]. *)
Definition load_centres (data : list CentreEntry) : CentreMap :=
  fold_left
    (fun out e => <[ filename e := labels_map (label_info e) ]> out)
    data ∅.

(** ** Aggregation in the anatomy script *)

(** A standard deviation: a real number, or NaN. *)
Inductive rscore := RNaN | RNum (r : R).

Module AnatomyAggregate.
Import AnatomyRun.

Record Aggregated := {
  anat_acc_mean : score;  anat_acc_std : rscore;
  anat_f1_mean : score;   anat_f1_std : rscore;
  img_acc_mean : score;   img_acc_std : rscore;
  img_f1_mean : score;    img_f1_std : rscore
}.

(** [mean(lst) if lst else float('nan')] *)
Definition m (lst : list Q) : option score :=
  match lst with
  | [] => Some NaN
  | _ => option_map Num (mean lst)
  end.

(** [safe_stdev(lst) if lst else float('nan')] *)
Definition sd (lst : list Q) : option rscore :=
  match lst with
  | [] => Some RNaN
  | _ => option_map RNum (safe_stdev lst)
  end.

(** [aggregate_runs].  As for the image script, [None] also stands for
    results with a NaN score, on which [statistics] is not modelled. *)
Definition aggregate_runs (run_results : list RunMetrics) : option Aggregated :=
  match numbers (List.map anat_acc run_results),
        numbers (List.map anat_f1 run_results),
        numbers (List.map img_acc run_results),
        numbers (List.map img_f1 run_results) with
  | Some a_accs, Some a_f1s, Some i_accs, Some i_f1s =>
      match m a_accs, sd a_accs, m a_f1s, sd a_f1s,
            m i_accs, sd i_accs, m i_f1s, sd i_f1s with
      | Some aam, Some aas, Some afm, Some afs,
        Some iam, Some ias, Some ifm, Some ifs =>
          Some {| anat_acc_mean := aam; anat_acc_std := aas;
                  anat_f1_mean := afm; anat_f1_std := afs;
                  img_acc_mean := iam; img_acc_std := ias;
                  img_f1_mean := ifm; img_f1_std := ifs |}
      | _, _, _, _, _, _, _, _ => None
      end
  | _, _, _, _ => None
  end.

End AnatomyAggregate.

(** * The vocabulary of the properties *)

(** [t] occurs in [s] as a contiguous piece. *)
Definition piece (t s : str) : Prop := exists l r, s = l ++ t ++ r.

(** A binary label, and the label of a parse result: 0, 1 or [None]. *)
Definition is_bit (z : Z) : Prop := z = 0%Z \/ z = 1%Z.

Definition is_label (l : option Z) : Prop :=
  l = None \/ l = Some 0%Z \/ l = Some 1%Z.

(** A pair leaves the scan undecided when its word is not in the question,
    or when neither it nor its opposite is in the answer. *)
Definition undecided (ql al : str) (p : str * str) : Prop :=
  contains (fst p) ql = false
  \/ (contains (fst p) al = false /\ contains (snd p) al = false).

(** Tactics: case analysis on the condition of the first conditional of
    the goal, and the two ways for a label to be a bit. *)
Ltac case_if :=
  match goal with
  | |- context [if ?b then _ else _] => destruct b
  end.

Ltac bit_label := first [right; right; reflexivity | right; left; reflexivity].

(** The answers of the specification that consist of one token. *)
Definition single_token_cases : list (string * Z) :=
  [ ("0", 0); ("1", 1); ("(1)", 1); ("'0'", 0); ("Yes.", 1); ("NO", 0);
    ("  1  ", 1) ]%string%Z.

(** The invariant of the loop after [n] records. *)
Definition loop_inv (n : nat) (st : ImageRun.EvalState) : Prop :=
  Forall is_bit (ImageRun.preds st) /\ Forall is_bit (ImageRun.targs st)
  /\ length (ImageRun.preds st) = n /\ length (ImageRun.targs st) = n
  /\ ImageRun.correct st + ImageRun.incorrect st = n
  /\ ImageRun.unsure st <= ImageRun.incorrect st.

(** The expected answer of the record is 0 or 1. *)
Definition binary_expected (call : QARecord) : Prop :=
  expected_answer call = Some 0%Z \/ expected_answer call = Some 1%Z.

(** [u] is what is left of [s] after some prefix. *)
Definition rest_of (u s : str) : Prop := exists p, s = p ++ u.

(** The second scenario of the specification. *)
Definition hard_to_tell : QARecord :=
  {| question := py "Is the liver to the left of the spleen?";
     model_answer := py "I think it's hard to tell.";
     expected_answer := Some 1%Z;
     entire_prompt := py "Answer strictly with '1' for Yes or '0' for No.";
     object1_name := None;
     object2_name := None |}.

(** The first scenario of the specification. *)
Definition answered (ans : string) (exp : Z) : QARecord :=
  {| question := py "Is the liver to the left of the spleen?";
     model_answer := py ans;
     expected_answer := Some exp;
     entire_prompt := py "Answer strictly with '1' for Yes or '0' for No.";
     object1_name := None;
     object2_name := None |}.

(** The question asks for a side: the phrase occurs between blanks in the
    question, whatever the case of its letters. *)
Definition asks_left (q : str) : Prop :=
  contains (py " to the left of ") (lower q) = true.

Definition asks_right (q : str) : Prop :=
  contains (py " to the right of ") (lower q) = true.

(** The third scenario of the specification: the liver at x = 120, the
    spleen at x = 80. *)
Definition liver_spleen_centres : CentreMap :=
  {[ py "img.png" :=
       <[ py "liver" := (120 # 1, 50 # 1)%Q ]>
         {[ py "spleen" := (80 # 1, 60 # 1)%Q ]} ]}.

Definition liver_spleen : QARecord :=
  {| question := py "Is the liver to the left of the spleen?";
     model_answer := py "1";
     expected_answer := Some 0%Z;
     entire_prompt := [];
     object1_name := None;
     object2_name := None |}.

(** A text of blanks only, and a word: a non-empty text without blanks. *)
Definition blank (s : str) : Prop := forallb is_space s = true.

Definition is_word (w : str) : Prop :=
  w <> [] /\ forallb (fun c => negb (is_space c)) w = true.

(** The side words. *)
Definition is_side (w : str) : bool :=
  str_eqb w (py "left") || str_eqb w (py "right").

(** The result of [canon_name] in terms of the words of the lower-cased
    name. *)
Definition side_last (words : list str) : str :=
  match words with
  | [] => []
  | w :: rest =>
      if is_side w then join_with (py "_") rest ++ py "_" ++ w
      else join_with (py "_") (w :: rest)
  end.

(** The sample variance and the population variance of the specification:
    the squared deviations from the arithmetic mean, over [n - 1] and over
    [n]. *)
Definition arithmetic_mean (x : list Q) : Q := (Qsum x / Qlen x)%Q.


Definition population_variance (x : list Q) : Q :=
  (sum_sq_dev (arithmetic_mean x) x / Qlen x)%Q.



(** The metrics of a run of which only the two scores matter. *)
Definition run_with (acc f : Q) : ImageRun.RunMetrics :=
  {| ImageRun.accuracy := Num acc; ImageRun.f1 := Num f;
     ImageRun.correct_count := 0; ImageRun.incorrect_count := 0;
     ImageRun.unsure_count := 0 |}.

(** The answer holds none of 0, 1, yes, no, not even inside a word and
    whatever the case of the letters. *)
Definition no_answer_token (s : str) : Prop :=
  forall t, In t answer_tokens -> contains t (lower s) = false.

(** The text holds no direction word that matches the question: for each
    direction word of the question, neither this word nor its opposite. *)
Definition no_direction_word (q s : str) : Prop :=
  forall d opp, In (d, opp) direction_pairs ->
                contains d (lower q) = true ->
                contains d (lower s) = false /\ contains opp (lower s) = false.

(** The statement of the specification: an answer without any token and
    without a direction word that matches the question is unparseable. *)
Definition unparseable_claim : Prop :=
  forall ans q prompt,
    no_answer_token ans -> no_direction_word q ans ->
    fst (Image.parse_model_answer ans q prompt) = None.

(** An answer in which a line of the prompt stands inside a word. *)
Definition hyphen_answer : str := py "It is on the le-ft side".

Definition hyphen_question : str := py "Is the liver to the left of the spleen?".

Definition hyphen_prompt : str :=
  py "Answer with 1 or 0." ++ [LF] ++ py "-" ++ [LF]
  ++ py "Q: Is the liver to the left of the spleen?".

(** The label of a token: 1 for 1 and yes, 0 for 0 and no. *)
Definition token_label (t : str) : Z :=
  if existsb (str_eqb (lower t)) [py "1"; py "yes"] then 1%Z else 0%Z.

(** The characters a token starts with, in lower case. *)
Definition token_initial (c : ascii) : bool :=
  existsb (Ascii.eqb c) (py "01yn").

Definition initial_ok (t : str) : Prop :=
  match t with c :: _ => token_initial c = true | [] => False end.

(** A text without blanks. *)
Definition no_blank (s : str) : Prop :=
  forallb (fun c => negb (is_space c)) s = true.

(** The records that [eval_run] evaluates, and their number. *)
Definition in_subset_record (r : QARecord) : bool :=
  AnatomyRun.in_subset (question r).

Definition subset_count (data : RunFile) : nat :=
  length (List.filter in_subset_record (records data)).

(** The run file without the records that [eval_run] skips. *)
Definition subset_only (data : RunFile) : RunFile :=
  List.map
    (fun e => {| file_name := file_name e;
                 results_call := List.filter in_subset_record (results_call e) |})
    data.

(** The variables of the image view and those of the anatomy view. *)
Definition image_tallies (st : AnatomyRun.EvalState)
  : list Z * list Z * nat * nat * nat :=
  (AnatomyRun.img_preds st, AnatomyRun.img_targs st, AnatomyRun.img_corr st,
   AnatomyRun.img_wrong st, AnatomyRun.img_tot st).

Definition anatomy_tallies (st : AnatomyRun.EvalState)
  : list Z * list Z * nat * nat * nat :=
  (AnatomyRun.anat_preds st, AnatomyRun.anat_targs st, AnatomyRun.anat_corr st,
   AnatomyRun.anat_wrong st, AnatomyRun.anat_tot st).

(** The counters of a view agree with its two lists, and the view has seen
    at most [n] records. *)
Definition tallies_consistent (n : nat) (t : list Z * list Z * nat * nat * nat)
  : Prop :=
  let '(preds, targs, corr, wrong, tot) := t in
  corr + wrong = tot /\ length preds = tot /\ length targs = tot /\ tot <= n.

(** What the loop of [evaluate_run] has accumulated after the records
    [rs]: the targets are their expected answers, there is one prediction
    per record, and the correct count is the number of places where target
    and prediction agree. *)
Definition loop_counts (rs : list QARecord) (st : ImageRun.EvalState) : Prop :=
  List.map Some (ImageRun.targs st) = List.map expected_answer rs
  /\ length (ImageRun.preds st) = length rs
  /\ ImageRun.correct st
     = count_where Z.eqb (ImageRun.targs st) (ImageRun.preds st)
  /\ ImageRun.correct st + ImageRun.incorrect st = length rs.

(** The image view of the anatomy script holds what the loop of the image
    script has accumulated. *)
Definition same_image_view (ist : ImageRun.EvalState)
  (ast : AnatomyRun.EvalState) : Prop :=
  image_tallies ast
  = (ImageRun.preds ist, ImageRun.targs ist, ImageRun.correct ist,
     ImageRun.incorrect ist, ImageRun.correct ist + ImageRun.incorrect ist).

(** Two optional lists of numbers that are both missing, or both present
    and equal up to the order. *)
Definition same_numbers (a b : option (list Q)) : Prop :=
  match a, b with
  | Some x, Some y => Permutation x y
  | None, None => True
  | _, _ => False
  end.

(** The file [fp] has the base name [b]. *)
Definition has_base (b : str) (fp : str) : bool :=
  bool_decide (base_of fp = Some b).

(** The end of the name of a run file with the number [digits]. *)
Definition run_suffix (digits : str) : str :=
  py "_run_" ++ digits ++ py ".json".

(** * Properties *)

(** ** Text *)

Lemma starts_with_app (p s : str) :
  starts_with p s = true <-> exists r, s = p ++ r.
Proof.
  revert s; induction p as [|a p IH]; intros s; simpl.
  - split; [intros _; exists s; reflexivity | reflexivity].
  - destruct s as [|b s]; simpl.
    + split; [discriminate | intros [r Hr]; discriminate].
    + rewrite andb_true_iff, Ascii.eqb_eq, IH. split.
      * intros [-> [r ->]]. exists r; reflexivity.
      * intros [r Hr]. injection Hr as -> ->. split; [reflexivity | exists r; reflexivity].
Qed.

Lemma contains_app (p s : str) :
  contains p s = true <-> exists l r, s = l ++ p ++ r.
Proof.
  induction s as [|c s IH]; simpl.
  - rewrite starts_with_app. split.
    + intros [r Hr]. exists [], r. exact Hr.
    + intros (l & r & H). destruct l; simpl in H.
      * exists r; exact H.
      * discriminate.
  - rewrite orb_true_iff, starts_with_app, IH. split.
    + intros [[r Hr] | (l & r & Hr)].
      * exists [], r; exact Hr.
      * exists (c :: l), r; simpl; rewrite Hr; reflexivity.
    + intros (l & r & H). destruct l as [|c' l]; simpl in H.
      * left; exists r; exact H.
      * right. injection H as _ H. exists l, r; exact H.
Qed.

Lemma piece_refl (s : str) : piece s s.
Proof. exists [], []. rewrite app_nil_r. reflexivity. Qed.

Lemma piece_trans (a b c : str) : piece a b -> piece b c -> piece a c.
Proof.
  intros (l1 & r1 & ->) (l2 & r2 & ->).
  exists (l2 ++ l1), (r1 ++ r2). rewrite <- !app_assoc. reflexivity.
Qed.

Lemma contains_piece (p s : str) : contains p s = true <-> piece p s.
Proof. apply contains_app. Qed.

Lemma contains_in_piece (p t s : str) :
  piece t s -> contains p t = true -> contains p s = true.
Proof.
  intros Hts Hp. apply contains_piece. apply contains_piece in Hp.
  eapply piece_trans; eassumption.
Qed.

Lemma absent_in_piece (p t s : str) :
  piece t s -> contains p s = false -> contains p t = false.
Proof.
  intros Hts Hs. destruct (contains p t) eqn:E; [|reflexivity].
  rewrite (contains_in_piece _ _ _ Hts E) in Hs. discriminate.
Qed.

Lemma lower_app (a b : str) : lower (a ++ b) = lower a ++ lower b.
Proof. apply List.map_app. Qed.

Lemma piece_lower (t s : str) : piece t s -> piece (lower t) (lower s).
Proof.
  intros (l & r & ->). exists (lower l), (lower r).
  rewrite !lower_app. reflexivity.
Qed.

Lemma lstrip_suffix (s : str) : exists l, s = l ++ lstrip s.
Proof.
  induction s as [|c s [l Hl]]; simpl.
  - exists []; reflexivity.
  - destruct (is_space c).
    + exists (c :: l). simpl. rewrite <- Hl. reflexivity.
    + exists []; reflexivity.
Qed.

Lemma rstrip_prefix (s : str) : exists r, s = rstrip s ++ r.
Proof.
  unfold rstrip. destruct (lstrip_suffix (rev s)) as [l Hl].
  exists (rev l). rewrite <- rev_app_distr, <- Hl, rev_involutive. reflexivity.
Qed.

Lemma strip_piece (s : str) : piece (strip s) s.
Proof.
  unfold strip. destruct (lstrip_suffix s) as [l Hl].
  destruct (rstrip_prefix (lstrip s)) as [r Hr].
  exists l, r. rewrite <- Hr. exact Hl.
Qed.

Lemma str_eqb_eq (a b : str) : str_eqb a b = true <-> a = b.
Proof.
  revert b; induction a as [|x a IH]; intros [|y b]; simpl;
    try (split; [discriminate | discriminate]); try tauto.
  rewrite andb_true_iff, Ascii.eqb_eq, IH. split.
  - intros [-> ->]; reflexivity.
  - intros H; injection H as -> ->; split; reflexivity.
Qed.

(** ** The direction fallback *)

Lemma scan_pairs_label (pairs : list (str * str)) (ql al : str) :
  is_label (scan_pairs pairs ql al).
Proof.
  induction pairs as [|[d opp] rest IH]; simpl.
  - left; reflexivity.
  - destruct (contains d ql); [|exact IH].
    destruct (contains d al); [right; right; reflexivity|].
    destruct (contains opp al); [right; left; reflexivity | exact IH].
Qed.

Lemma parse_spatial_relation_label (q a : str) :
  is_label (parse_spatial_relation q a).
Proof. apply scan_pairs_label. Qed.

Lemma scan_pairs_skip (pre post : list (str * str)) (ql al : str) :
  Forall (undecided ql al) pre ->
  scan_pairs (pre ++ post) ql al = scan_pairs post ql al.
Proof.
  induction 1 as [|[d opp] pre Hp _ IH]; simpl; [reflexivity|].
  destruct Hp as [Hq | [Hd Ho]]; simpl in *.
  - rewrite Hq. exact IH.
  - rewrite Hd, Ho. destruct (contains d ql); exact IH.
Qed.

Lemma scan_pairs_none (pairs : list (str * str)) (ql al : str) :
  Forall (undecided ql al) pairs -> scan_pairs pairs ql al = None.
Proof.
  intros H. rewrite <- (app_nil_r pairs). rewrite scan_pairs_skip by exact H.
  reflexivity.
Qed.

(** C6.  [parse_spatial_relation] scans the pairs (above, below),
    (below, above), (left, right), (right, left) in this order.  At the first
    pair that is not skipped and whose word occurs in the question, the
    result is 1 when that word occurs in the answer, 0 when it does not but
    the opposite word does, and otherwise the scan goes on with the pairs
    that follow.  When the word of no pair occurs in the question the result
    is [None].  Both texts are compared in lower case. *)
Theorem parse_spatial_relation_scan (q a : str) :
  direction_pairs =
    [ (py "above", py "below"); (py "below", py "above");
      (py "left", py "right"); (py "right", py "left") ]
  /\ (forall pre d opp post,
        direction_pairs = pre ++ (d, opp) :: post ->
        Forall (undecided (lower q) (lower a)) pre ->
        contains d (lower q) = true ->
        parse_spatial_relation q a =
          if contains d (lower a) then Some 1%Z
          else if contains opp (lower a) then Some 0%Z
          else scan_pairs post (lower q) (lower a))
  /\ ((forall d opp, In (d, opp) direction_pairs ->
                     contains d (lower q) = false) ->
      parse_spatial_relation q a = None).
Proof.
  split; [reflexivity|]. split.
  - intros pre d opp post Hsplit Hpre Hd.
    unfold parse_spatial_relation. rewrite Hsplit.
    rewrite scan_pairs_skip by exact Hpre. simpl. rewrite Hd. reflexivity.
  - intros Hno. unfold parse_spatial_relation. apply scan_pairs_none.
    apply List.Forall_forall. intros [d opp] Hin. left. simpl.
    exact (Hno d opp Hin).
Qed.

Lemma parse_spatial_relation_scan_witness :
  parse_spatial_relation (py "Is the liver above or to the left of the spleen?")
    (py "It is on the RIGHT side.") = Some 0%Z
  /\ parse_spatial_relation (py "Is the liver bigger?") (py "left") = None.
Proof.
  split.
  - destruct (parse_spatial_relation_scan
                (py "Is the liver above or to the left of the spleen?")
                (py "It is on the RIGHT side.")) as (_ & H & _).
    apply (H [ (py "above", py "below"); (py "below", py "above") ]
             (py "left") (py "right") [ (py "right", py "left") ]).
    + reflexivity.
    + repeat constructor; vm_compute; tauto.
    + reflexivity.
  - destruct (parse_spatial_relation_scan (py "Is the liver bigger?") (py "left"))
      as (_ & _ & H).
    apply H. intros d opp Hin. simpl in Hin.
    repeat (destruct Hin as [Hin | Hin]; [injection Hin as <- <-; reflexivity|]).
    destruct Hin.
Defined.

(** ** The answer parser *)

Lemma opt_in_digit (d : option str) :
  opt_in d digit_tokens = true -> d = Some (py "0") \/ d = Some (py "1").
Proof.
  destruct d as [v|]; simpl; [|discriminate].
  rewrite !orb_true_iff, !str_eqb_eq. intros [-> | [-> | H]]; auto. discriminate.
Qed.

Lemma prompt_tiers_label (txt q prompt : str) :
  is_label (fst (prompt_tiers txt q prompt))
  /\ snd (prompt_tiers txt q prompt) = Some (strip_prompt prompt txt).
Proof.
  unfold prompt_tiers.
  set (cleaned := strip_prompt prompt txt).
  set (by_clause := match first_clause cleaned with
                    | Some m => parse_spatial_relation q (strip m)
                    | None => None
                    end).
  assert (Hc : is_label by_clause).
  { unfold by_clause. destruct (first_clause cleaned).
    - apply parse_spatial_relation_label.
    - left; reflexivity. }
  destruct by_clause as [sr2|]; simpl.
  - split; [exact Hc | reflexivity].
  - destruct (keyword_digit cleaned) as [g|]; simpl.
    + split; [|reflexivity].
      case_if; bit_label.
    + split; [left|]; reflexivity.
Qed.

Lemma sentence_tiers_label (txt q prompt : str) :
  is_label (fst (sentence_tiers txt q prompt)).
Proof.
  unfold sentence_tiers.
  destruct (short_sentence txt); [|apply prompt_tiers_label].
  pose proof (parse_spatial_relation_label q txt) as H.
  destruct (parse_spatial_relation q txt); [exact H | apply prompt_tiers_label].
Qed.

Lemma image_parse_label (ans q prompt : str) :
  is_label (fst (Image.parse_model_answer ans q prompt)).
Proof.
  unfold Image.parse_model_answer.
  destruct (opt_in (Image.sdigit (strip ans)) digit_tokens) eqn:Ed.
  { apply opt_in_digit in Ed. destruct Ed as [-> | ->];
      [right; left | right; right]; reflexivity. }
  clear Ed. destruct (opt_in (Image.syesno (strip ans)) yesno_tokens).
  { simpl. case_if; bit_label. }
  destruct (Image.se_token (strip ans)).
  { simpl. case_if; bit_label. }
  apply sentence_tiers_label.
Qed.


(** C1.  On each of the answers 0, 1, (1), '0', Yes., NO and 1 between
    blanks, with any question and any prompt, [parse_model_answer] of either
    script returns the binary label of the answer (1 for 1, (1), Yes. and
    the padded 1; 0 for 0, '0' and NO), never [None]. *)
Theorem parse_model_answer_single_token (q prompt : str) :
  Forall
    (fun c =>
       Image.parse_model_answer (py (fst c)) q prompt = (Some (snd c), None)
       /\ Anatomy.parse_model_answer (py (fst c)) q prompt
          = (Some (snd c), None))
    single_token_cases.
Proof. repeat constructor. Qed.


(** ** The metrics of [sklearn] on binary labels *)

Lemma bits_incl (l : list Z) : Forall is_bit l -> incl l [0%Z; 1%Z].
Proof.
  intros H x Hx. rewrite List.Forall_forall in H.
  destruct (H x Hx) as [-> | ->]; simpl; auto.
Qed.

Lemma f1_score_bits (targs preds : list Z) :
  Forall is_bit targs -> Forall is_bit preds ->
  exists f, f1_score targs preds = Some (Num f).
Proof.
  intros Ht Hp. unfold f1_score.
  set (labels := labels_of targs preds).
  assert (Hnd : List.NoDup labels) by apply NoDup_nodup.
  assert (Hincl : incl labels [0%Z; 1%Z]).
  { intros x Hx. apply nodup_In in Hx. apply bits_incl with (l := targs ++ preds).
    - apply Forall_app; split; assumption.
    - exact Hx. }
  assert (Hlen : length labels <= 2).
  { apply (NoDup_incl_length Hnd Hincl). }
  assert (Hone : length labels = 2 -> existsb (Z.eqb 1) labels = true).
  { intros H2. destruct (existsb (Z.eqb 1) labels) eqn:E; [reflexivity|].
    assert (Hz : incl labels [0%Z]).
    { intros x Hx. destruct (Hincl x Hx) as [<- | [<- | []]]; [left; reflexivity|].
      exfalso. assert (existsb (Z.eqb 1) labels = true); [|congruence].
      apply existsb_exists. exists 1%Z. split; [exact Hx | reflexivity]. }
    pose proof (NoDup_incl_length Hnd Hz) as H1. simpl in H1. lia. }
  destruct (2 <? length labels) eqn:E2.
  { apply Nat.ltb_lt in E2. lia. }
  destruct (length labels =? 2) eqn:E3; simpl.
  - apply Nat.eqb_eq in E3. rewrite (Hone E3). simpl. eexists; reflexivity.
  - eexists; reflexivity.
Qed.

(** ** The evaluation of one run by the image script *)

Module ImageRunFacts.
Import Image ImageRun.

Lemma eval_calls_none (calls : list QARecord) : eval_calls None calls = None.
Proof. induction calls as [|c calls IH]; simpl; [reflexivity | exact IH]. Qed.

Lemma eval_calls_app (st : option EvalState) (a b : list QARecord) :
  eval_calls st (a ++ b) = eval_calls (eval_calls st a) b.
Proof. unfold eval_calls. apply fold_left_app. Qed.

(** The nested loops visit the records of the run file in order. *)
Lemma evaluate_loop_records (data : RunFile) :
  evaluate_loop data = eval_calls (Some init_state) (records data).
Proof.
  unfold evaluate_loop, records. generalize (Some init_state).
  induction data as [|e data IH]; intros st; simpl; [reflexivity|].
  rewrite IH, eval_calls_app. reflexivity.
Qed.

(** An unparseable answer is never scored as a hit. *)
Lemma opposite_differs (exp : Z) : Z.eqb (1 - exp) exp = false.
Proof. apply Z.eqb_neq. lia. Qed.

Lemma predicted_bit (call : QARecord) (exp : Z) :
  is_bit exp -> is_bit (fst (predicted call exp)).
Proof.
  intros He. unfold predicted.
  pose proof (image_parse_label (model_answer call) (question call)
                (entire_prompt call)) as Hl.
  destruct (fst (parse_model_answer _ _ _)) as [p|]; simpl.
  - destruct Hl as [H | [H | H]]; inversion H; [left | right]; reflexivity.
  - destruct He as [-> | ->]; [right | left]; reflexivity.
Qed.

Lemma eval_call_inv (n : nat) (st : EvalState) (call : QARecord) :
  loop_inv n st -> binary_expected call ->
  exists st', eval_call st call = Some st' /\ loop_inv (S n) st'.
Proof.
  intros (Hp & Ht & Hlp & Hlt & Hsum & Hun) Hexp.
  assert (Hex : exists exp, expected_answer call = Some exp /\ is_bit exp).
  { destruct Hexp as [H | H]; eexists; (split; [exact H|]); [left | right];
      reflexivity. }
  destruct Hex as (exp & Hexp' & Hbit).
  unfold eval_call. rewrite Hexp'.
  pose proof (predicted_bit call exp Hbit) as Hpb.
  assert (Hwrong : snd (predicted call exp) = true ->
                   Z.eqb (fst (predicted call exp)) exp = false).
  { unfold predicted. destruct (fst (parse_model_answer _ _ _)); simpl;
      [discriminate | intros _; apply opposite_differs]. }
  destruct (predicted call exp) as [pred is_unsure]; simpl in *.
  eexists; split; [reflexivity|]. unfold loop_inv; simpl.
  repeat split.
  - apply Forall_app; split; [exact Hp | constructor; [exact Hpb | constructor]].
  - apply Forall_app; split; [exact Ht | constructor; [exact Hbit | constructor]].
  - rewrite length_app; simpl; lia.
  - rewrite length_app; simpl; lia.
  - destruct (Z.eqb pred exp); simpl; lia.
  - destruct is_unsure; simpl; [rewrite (Hwrong eq_refl); simpl|]; lia.
Qed.

Lemma eval_calls_inv (calls : list QARecord) (n : nat) (st : EvalState) :
  loop_inv n st -> Forall binary_expected calls ->
  exists st', eval_calls (Some st) calls = Some st'
              /\ loop_inv (n + length calls) st'.
Proof.
  revert n st; induction calls as [|c calls IH]; intros n st Hinv Hall.
  - exists st. rewrite Nat.add_0_r. split; [reflexivity | exact Hinv].
  - inversion Hall as [|? ? Hc Hrest]; subst.
    destruct (eval_call_inv n st c Hinv Hc) as (st1 & E1 & Hinv1).
    destruct (IH (S n) st1 Hinv1 Hrest) as (st' & E' & Hinv').
    exists st'. split.
    + simpl. rewrite E1. exact E'.
    + simpl length. replace (n + S (length calls)) with (S n + length calls) by lia.
      exact Hinv'.
Qed.

Lemma init_inv : loop_inv 0 init_state.
Proof. unfold loop_inv; simpl. repeat split; auto. Qed.

End ImageRunFacts.

(** ** What a match of the combinators tells *)

Lemma rest_of_refl (s : str) : rest_of s s.
Proof. exists []; reflexivity. Qed.

Lemma rest_of_cons (c : ascii) (u s : str) : rest_of u s -> rest_of u (c :: s).
Proof. intros [p ->]. exists (c :: p); reflexivity. Qed.

Lemma rest_of_trans (a b c : str) : rest_of a b -> rest_of b c -> rest_of a c.
Proof. intros [p ->] [p' ->]. exists (p' ++ p). apply app_assoc. Qed.

Lemma rest_of_skipn (n : nat) (s : str) : rest_of (skipn n s) s.
Proof. exists (firstn n s). symmetry. apply firstn_skipn. Qed.

Lemma rest_of_piece (u s : str) : rest_of u s -> piece u s.
Proof. intros [p ->]. exists p, []. rewrite app_nil_r. reflexivity. Qed.

Section RegexFacts.
Context {A : Type}.
Implicit Types (k : K A) (s u : str) (x : A).

Lemma r_star_some cls k s x :
  r_star cls k s = Some x -> exists u, rest_of u s /\ k u = Some x.
Proof.
  induction s as [|c s IH]; simpl.
  - intros H. exists []. split; [apply rest_of_refl | exact H].
  - destruct (cls c).
    + destruct (r_star cls k s) as [y|] eqn:E.
      * intros H; injection H as ->. destruct (IH eq_refl) as (u & Hu & Hk).
        exists u. split; [apply rest_of_cons; exact Hu | exact Hk].
      * intros H. exists (c :: s). split; [apply rest_of_refl | exact H].
    + intros H. exists (c :: s). split; [apply rest_of_refl | exact H].
Qed.

Lemma r_tok_some ci toks (k : str -> K A) s x :
  r_tok ci toks k s = Some x ->
  exists t, In t toks
            /\ starts_with t (if ci then lower s else s) = true
            /\ k (firstn (length t) s) (skipn (length t) s) = Some x.
Proof.
  induction toks as [|t ts IH]; simpl; [discriminate|].
  destruct (starts_with t (if ci then lower s else s)) eqn:E.
  - destruct (k (firstn (length t) s) (skipn (length t) s)) as [y|] eqn:Ek.
    + intros H; injection H as ->. exists t. auto.
    + intros H. destruct (IH H) as (t' & Hin & Hs & Hk). exists t'. auto.
  - intros H. destruct (IH H) as (t' & Hin & Hs & Hk). exists t'. auto.
Qed.

Lemma r_opt_tok_some ci toks k s x :
  r_opt_tok ci toks k s = Some x -> exists u, rest_of u s /\ k u = Some x.
Proof.
  unfold r_opt_tok. destruct (r_tok ci toks (fun _ => k) s) as [y|] eqn:E.
  - intros H; injection H as ->. apply r_tok_some in E.
    destruct E as (t & _ & _ & Hk). eexists. split; [apply rest_of_skipn | exact Hk].
  - intros H. exists s. split; [apply rest_of_refl | exact H].
Qed.

Lemma re_search_some (r : K A) s x :
  re_search r s = Some x -> exists u, rest_of u s /\ r u = Some x.
Proof.
  induction s as [|c s IH]; simpl.
  - destruct (r []) as [y|] eqn:E; [|discriminate].
    intros H; injection H as ->. exists []. split; [apply rest_of_refl | exact E].
  - destruct (r (c :: s)) as [y|] eqn:E.
    + intros H; injection H as ->. exists (c :: s).
      split; [apply rest_of_refl | exact E].
    + intros H. destruct (IH H) as (u & Hu & Hr). exists u.
      split; [apply rest_of_cons; exact Hu | exact Hr].
Qed.

(** After a run of closing characters, the end of the text and [$]
    agree: a line feed is itself a closing character. *)
Lemma r_star_close_dollar x s :
  r_star is_close (r_dollar x) s = r_star is_close (r_eos x) s.
Proof.
  induction s as [|c s IH]; simpl; [reflexivity|].
  destruct (is_close c) eqn:Ec.
  - rewrite IH. destruct (r_star is_close (r_eos x) s) eqn:E; [reflexivity|].
    destruct s as [|c' s']; [simpl in E; discriminate | reflexivity].
  - destruct s as [|c' s']; [|reflexivity].
    destruct (code c =? 10)%N eqn:E10; [|reflexivity].
    apply N.eqb_eq in E10. unfold is_close, is_space in Ec. rewrite E10 in Ec.
    rewrite orb_false_iff in Ec. destruct Ec as [_ Ec]. discriminate Ec.
Qed.

Lemma r_star_eos_ret cls x y s :
  r_star cls (r_eos x) s = Some y -> y = x.
Proof.
  intros H. apply r_star_some in H. destruct H as (u & _ & H).
  destruct u; simpl in H; congruence.
Qed.
End RegexFacts.

(** A token found at the start of [u] occurs in it. *)
Lemma starts_with_contains (t u : str) :
  starts_with t u = true -> contains t u = true.
Proof.
  intros H. apply starts_with_app in H. destruct H as [r ->].
  apply contains_app. exists [], r. reflexivity.
Qed.

Lemma starts_with_lower (t u : str) :
  lower t = t -> starts_with t u = true -> starts_with t (lower u) = true.
Proof.
  intros Ht H. apply starts_with_app in H. destruct H as [r ->].
  apply starts_with_app. exists (lower r). rewrite lower_app, Ht. reflexivity.
Qed.

Lemma starts_with_length (t u : str) :
  starts_with t u = true -> length t <= length u.
Proof.
  intros H. apply starts_with_app in H. destruct H as [r ->].
  rewrite length_app. lia.
Qed.

Lemma lower_length (s : str) : length (lower s) = length s.
Proof. apply length_map. Qed.

(** The group of a token pattern is not empty. *)
Lemma token_group_nonempty (ci : bool) (t s : str) :
  t <> [] -> starts_with t (if ci then lower s else s) = true ->
  lower (firstn (length t) s) <> [].
Proof.
  intros Ht H. apply starts_with_length in H.
  assert (Hl : length t <= length s) by (destruct ci; [rewrite lower_length in H|]; exact H).
  intros E. apply (f_equal (@length ascii)) in E.
  rewrite lower_length, length_firstn, Nat.min_l in E by exact Hl.
  destruct t; [congruence | discriminate E].
Qed.

Section RegexExt.
Context {A : Type}.

Lemma r_star_ext cls (k1 k2 : K A) s :
  (forall u, k1 u = k2 u) -> r_star cls k1 s = r_star cls k2 s.
Proof.
  intros H. induction s as [|c s IH]; simpl; [apply H|].
  rewrite IH, H. reflexivity.
Qed.

Lemma r_tok_ext ci toks (k1 k2 : str -> K A) s :
  (forall g u, k1 g u = k2 g u) -> r_tok ci toks k1 s = r_tok ci toks k2 s.
Proof.
  intros H. induction toks as [|t ts IH]; simpl; [reflexivity|].
  rewrite IH, H. reflexivity.
Qed.
End RegexExt.

(** ** The two copies of the parser agree *)

Lemma sdigit_agree (s : str) : Anatomy.sdigit s = Image.sdigit s.
Proof.
  unfold Anatomy.sdigit, Image.sdigit, re_match.
  apply r_star_ext. intros u. apply r_tok_ext. intros g v.
  apply r_star_close_dollar.
Qed.

Lemma syesno_agree (s : str) : Anatomy.syesno s = Image.syesno s.
Proof.
  unfold Anatomy.syesno, Image.syesno, re_match. f_equal.
  apply r_star_ext. intros u. apply r_tok_ext. intros g v.
  apply r_star_close_dollar.
Qed.

Lemma se_token_agree (s : str) : Anatomy.se_token s = Image.se_token s.
Proof.
  unfold Anatomy.se_token, Image.se_token.
  destruct (re_match _ (strip s)); reflexivity.
Qed.

Lemma answer_token_nonempty (t : str) : In t answer_tokens -> t <> [].
Proof.
  simpl. intros [<- | [<- | [<- | [<- | []]]]]; discriminate.
Qed.

(** What [se_token] returns: a token of the pattern, in lower case, found
    at the start of some rest of the stripped text. *)
Lemma se_token_some (s : str) (tok : str) :
  Image.se_token s = Some tok ->
  exists t u, In t answer_tokens /\ rest_of u (strip s)
              /\ starts_with t (lower u) = true
              /\ tok = lower (firstn (length t) u).
Proof.
  unfold Image.se_token, re_match.
  destruct (r_star is_open _ (strip s)) as [g|] eqn:E1.
  - intros H; injection H as <-.
    apply r_star_some in E1. destruct E1 as (u & Hu & E1).
    apply r_tok_some in E1. destruct E1 as (t & Hin & Hs & Hk).
    unfold r_done in Hk. injection Hk as <-. exists t, u. auto.
  - destruct (re_search _ (strip s)) as [g|] eqn:E2; simpl; [|discriminate].
    intros H; injection H as <-.
    apply re_search_some in E2. destruct E2 as (u & Hu & E2).
    apply r_tok_some in E2. destruct E2 as (t & Hin & Hs & Hk).
    rewrite r_star_close_dollar in Hk. apply r_star_eos_ret in Hk. subst g.
    exists t, u. auto.
Qed.

Lemma se_token_nonempty (s : str) : Image.se_token s <> Some [].
Proof.
  intros H. apply se_token_some in H.
  destruct H as (t & u & Hin & _ & Hs & He).
  symmetry in He. revert He.
  apply (token_group_nonempty true); [apply answer_token_nonempty; exact Hin | exact Hs].
Qed.

Theorem parse_model_answer_agree (ans q prompt : str) :
  Anatomy.parse_model_answer ans q prompt = Image.parse_model_answer ans q prompt.
Proof.
  unfold Anatomy.parse_model_answer, Image.parse_model_answer.
  rewrite sdigit_agree, syesno_agree, se_token_agree.
  destruct (opt_in (Image.sdigit (strip ans)) digit_tokens); [reflexivity|].
  assert (Hyn : forall y,
             opt_in y yesno_tokens = opt_in y [py "yes"] || opt_in y [py "no"]).
  { intros [v|]; simpl; [|reflexivity].
    destruct (str_eqb v _), (str_eqb v _); reflexivity. }
  rewrite Hyn.
  destruct (opt_in (Image.syesno (strip ans)) [py "yes"]); [reflexivity|].
  destruct (opt_in (Image.syesno (strip ans)) [py "no"]); [reflexivity|].
  cbv beta iota.
  pose proof (se_token_nonempty (strip ans)) as Hne.
  destruct (Image.se_token (strip ans)) as [[|c t]|];
    [exfalso; apply Hne; reflexivity | reflexivity..].
Qed.

(** ** Unparseable answers *)



Example scenario_hard_to_tell :
  ImageRun.evaluate_run [ {| file_name := py "a.png"; results_call := [hard_to_tell] |} ]
  = Some {| ImageRun.accuracy := Num 0; ImageRun.f1 := Num 0;
            ImageRun.correct_count := 0; ImageRun.incorrect_count := 1;
            ImageRun.unsure_count := 1 |}.
Proof. vm_compute. reflexivity. Qed.

Example scenario_two_records :
  ImageRun.evaluate_run
    [ {| file_name := py "a.png";
         results_call := [answered "1" 1; answered "No" 0] |} ]
  = Some {| ImageRun.accuracy := Num 1; ImageRun.f1 := Num 1;
            ImageRun.correct_count := 2; ImageRun.incorrect_count := 0;
            ImageRun.unsure_count := 0 |}.
Proof. vm_compute. reflexivity. Qed.

(** ** The invariants of a run *)

(** C10.  For a run file whose records all have the expected answer 0 or 1,
    [evaluate_run] returns metrics; every predicted label and every target
    label of the loop is 0 or 1, there is one of each per record, the correct
    and the incorrect counts add up to the number of records, and the unsure
    count is at most the incorrect count. *)
Theorem evaluate_run_invariants (data : RunFile) :
  Forall binary_expected (records data) ->
  exists st m,
    ImageRun.evaluate_loop data = Some st
    /\ ImageRun.evaluate_run data = Some m
    /\ Forall is_bit (ImageRun.preds st)
    /\ Forall is_bit (ImageRun.targs st)
    /\ length (ImageRun.preds st) = length (records data)
    /\ length (ImageRun.targs st) = length (records data)
    /\ ImageRun.correct_count m = ImageRun.correct st
    /\ ImageRun.incorrect_count m = ImageRun.incorrect st
    /\ ImageRun.unsure_count m = ImageRun.unsure st
    /\ ImageRun.correct_count m + ImageRun.incorrect_count m
       = length (records data)
    /\ ImageRun.unsure_count m <= ImageRun.incorrect_count m.
Proof.
  intros Hall.
  destruct (ImageRunFacts.eval_calls_inv (records data) 0 ImageRun.init_state
              ImageRunFacts.init_inv Hall)
    as (st & Hst & Hp & Ht & Hlp & Hlt & Hsum & Hun).
  simpl in Hlp, Hlt, Hsum.
  destruct (f1_score_bits _ _ Ht Hp) as [f Hf].
  exists st. eexists.
  split; [rewrite ImageRunFacts.evaluate_loop_records; exact Hst|].
  split.
  { unfold ImageRun.evaluate_run.
    rewrite ImageRunFacts.evaluate_loop_records, Hst, Hf. reflexivity. }
  simpl. auto 12.
Qed.

Lemma evaluate_run_invariants_witness :
  exists st m,
    ImageRun.evaluate_loop
      [ {| file_name := py "a.png";
           results_call := [answered "1" 1; hard_to_tell; answered "No" 0] |} ]
    = Some st
    /\ ImageRun.evaluate_run
         [ {| file_name := py "a.png";
              results_call := [answered "1" 1; hard_to_tell; answered "No" 0] |} ]
       = Some m
    /\ ImageRun.correct_count m + ImageRun.incorrect_count m = 3
    /\ ImageRun.unsure_count m <= ImageRun.incorrect_count m.
Proof.
  destruct (evaluate_run_invariants
              [ {| file_name := py "a.png";
                   results_call := [answered "1" 1; hard_to_tell; answered "No" 0] |} ])
    as (st & m & H1 & H2 & _ & _ & _ & _ & _ & _ & _ & H3 & H4).
  - unfold records; simpl.
    repeat (apply List.Forall_cons; [vm_compute; auto|]). apply List.Forall_nil.
  - exists st, m. auto.
Defined.

(** ** A run without records *)





(** ** The anatomy ground truth *)

Lemma Qltb_lt (x y : Q) : Qltb x y = true <-> (x < y)%Q.
Proof.
  unfold Qltb. rewrite negb_true_iff. split.
  - intros H. apply Qnot_le_lt. intros Hle. apply Qle_bool_iff in Hle. congruence.
  - intros H. destruct (Qle_bool y x) eqn:E; [|reflexivity].
    apply Qle_bool_iff in E. exfalso. exact (Qlt_not_le _ _ H E).
Qed.

Lemma anatomy_truth_spec (q : str) (cx1 cx2 : Q) :
  (anatomy_truth q cx1 cx2 = 1%Z <->
   (asks_left q /\ (cx2 < cx1)%Q) \/ (asks_right q /\ (cx1 < cx2)%Q))
  /\ (anatomy_truth q cx1 cx2 = 1%Z \/ anatomy_truth q cx1 cx2 = 0%Z).
Proof.
  unfold anatomy_truth, asks_left, asks_right.
  rewrite <- !Qltb_lt.
  destruct (contains _ (lower q)), (contains _ (lower q)),
    (Qltb cx2 cx1), (Qltb cx1 cx2); simpl; split; auto;
    split; try discriminate; auto; intros [[? ?] | [? ?]]; discriminate.
Qed.

Lemma asks_in_subset (q : str) :
  asks_left q \/ asks_right q -> AnatomyRun.in_subset q = true.
Proof.
  unfold asks_left, asks_right, AnatomyRun.in_subset.
  intros [H | H]; apply contains_piece in H; apply orb_true_iff; [left | right];
    apply contains_piece; (eapply piece_trans; [|exact H]).
  - exists (py " to the "), (py " of "). reflexivity.
  - exists (py " to the "), (py " of "). reflexivity.
Qed.

(** C3.  For a record of the left/right subset, which holds every
    question with the phrase to the left of or to the right of, and whose
    two objects are found in the centre map at the x-coordinates [cx1] and
    [cx2], the loop of [eval_run] appends one anatomy target.  This target
    is 1 exactly when the question asks to the left of and [cx1 > cx2], or
    asks to the right of and [cx1 < cx2]; otherwise it is 0. *)
Theorem anatomy_truth_left_right (centre_map : CentreMap) (fn : str)
  (st : AnatomyRun.EvalState) (r : QARecord) (cx1 cx2 : Q) :
  AnatomyRun.in_subset (question r) = true ->
  centres_of centre_map fn (object_names r) = Some (cx1, cx2) ->
  exists real,
    AnatomyRun.anat_targs (AnatomyRun.eval_record centre_map fn st r)
    = AnatomyRun.anat_targs st ++ [real]
    /\ (real = 1%Z <->
        (asks_left (question r) /\ (cx1 > cx2)%Q)
        \/ (asks_right (question r) /\ (cx1 < cx2)%Q))
    /\ (real = 1%Z \/ real = 0%Z).
Proof.
  intros Hsub Hc.
  exists (anatomy_truth (question r) cx1 cx2).
  split; [|apply anatomy_truth_spec].
  unfold AnatomyRun.eval_record. rewrite Hsub.
  unfold AnatomyRun.anatomy_view. rewrite Hc. simpl.
  unfold AnatomyRun.image_view. destruct (expected_answer r); reflexivity.
Qed.

Lemma anatomy_truth_left_right_witness :
  exists real,
    AnatomyRun.anat_targs
      (AnatomyRun.eval_record liver_spleen_centres (py "img.png")
         AnatomyRun.init_state liver_spleen)
    = [real] /\ real = 1%Z.
Proof.
  destruct (anatomy_truth_left_right liver_spleen_centres (py "img.png")
              AnatomyRun.init_state liver_spleen (120 # 1) (80 # 1))
    as (real & Ht & Hiff & _).
  - apply asks_in_subset. left. reflexivity.
  - vm_compute. reflexivity.
  - exists real. split; [exact Ht|]. apply Hiff. left.
    split; reflexivity.
Defined.

(** ** Canonical structure names *)

Lemma lower_char_space (c : ascii) : is_space (lower_char c) = is_space c.
Proof. destruct c as [[] [] [] [] [] [] [] []]; reflexivity. Qed.

Lemma lower_blank (s : str) : blank s -> blank (lower s).
Proof.
  unfold blank. induction s as [|c s IH]; simpl; [reflexivity|].
  rewrite lower_char_space, !andb_true_iff. intros [Hc Hs]. auto.
Qed.

Lemma lower_word (w : str) : is_word w -> is_word (lower w).
Proof.
  intros [Hne Hw]. split.
  - destruct w; [congruence | discriminate].
  - clear Hne. induction w as [|c w IH]; simpl in *; [reflexivity|].
    rewrite lower_char_space. apply andb_true_iff in Hw. destruct Hw as [Hc Hw].
    rewrite Hc. simpl. apply IH. exact Hw.
Qed.

Lemma lower_join (sep : str) (ws : list str) :
  lower (join_with sep ws) = join_with (lower sep) (List.map lower ws).
Proof.
  induction ws as [|w ws IH]; [reflexivity|].
  destruct ws as [|w' ws]; [reflexivity|].
  change (join_with sep (w :: w' :: ws)) with (w ++ sep ++ join_with sep (w' :: ws)).
  rewrite !lower_app, IH. reflexivity.
Qed.

Lemma lstrip_blank (s : str) : blank s -> lstrip s = [].
Proof.
  unfold blank. induction s as [|c s IH]; simpl; [reflexivity|].
  intros H. apply andb_true_iff in H. destruct H as [Hc Hs].
  rewrite Hc. apply IH. exact Hs.
Qed.

Lemma split_from_blank (cur s : str) :
  blank s -> split_from cur s = split_from cur [].
Proof.
  unfold blank. revert cur. induction s as [|c s IH]; intros cur; simpl; [reflexivity|].
  intros H. apply andb_true_iff in H. destruct H as [Hc Hs].
  rewrite Hc. destruct cur; rewrite (IH [] Hs); reflexivity.
Qed.

Lemma split_from_blank_prefix (lp s : str) :
  blank lp -> split_from [] (lp ++ s) = split_from [] s.
Proof.
  unfold blank. induction lp as [|c lp IH]; simpl; [reflexivity|].
  intros H. apply andb_true_iff in H. destruct H as [Hc Hs].
  rewrite Hc. apply IH. exact Hs.
Qed.

Lemma split_from_blank_suffix (cur s rp : str) :
  blank rp -> split_from cur (s ++ rp) = split_from cur s.
Proof.
  intros Hrp. revert cur. induction s as [|c s IH]; intros cur; simpl.
  - apply split_from_blank. exact Hrp.
  - destruct (is_space c); [destruct cur|]; rewrite IH; reflexivity.
Qed.

Lemma split_from_word (cur w s : str) :
  forallb (fun c => negb (is_space c)) w = true ->
  split_from cur (w ++ s) = split_from (rev w ++ cur) s.
Proof.
  revert cur. induction w as [|c w IH]; intros cur; simpl; [reflexivity|].
  intros H. apply andb_true_iff in H. destruct H as [Hc Hw].
  apply negb_true_iff in Hc. rewrite Hc, (IH _ Hw), <- app_assoc. reflexivity.
Qed.

Lemma split_from_after_word (w s : str) :
  is_word w -> blank s -> split_from (rev w) s = [w].
Proof.
  intros [Hne _] Hs. rewrite (split_from_blank _ _ Hs). simpl.
  destruct (rev w) eqn:E.
  - apply (f_equal (@rev ascii)) in E. rewrite rev_involutive in E. contradiction.
  - rewrite <- E, rev_involutive. reflexivity.
Qed.

(** [split] gives back the words that blanks separate. *)
Lemma split_ws_join (lp rp sep : str) (ws : list str) :
  blank lp -> blank rp -> blank sep -> sep <> [] -> Forall is_word ws ->
  split_ws (lp ++ join_with sep ws ++ rp) = ws.
Proof.
  intros Hlp Hrp Hsep Hne Hws. unfold split_ws.
  rewrite (split_from_blank_prefix _ _ Hlp).
  induction Hws as [|w ws Hw Hws IH]; simpl.
  - rewrite (split_from_blank _ _ Hrp). reflexivity.
  - destruct ws as [|w' ws].
    + rewrite (split_from_word [] w rp (proj2 Hw)), app_nil_r.
      apply split_from_after_word; auto.
    + rewrite <- !app_assoc.
      rewrite (split_from_word [] w _ (proj2 Hw)), app_nil_r.
      destruct sep as [|c sep]; [congruence|].
      unfold blank in Hsep. simpl in Hsep. apply andb_true_iff in Hsep.
      destruct Hsep as [Hc Hsep'].
      simpl. rewrite Hc.
      destruct (rev w) eqn:E.
      * apply (f_equal (@rev ascii)) in E. rewrite rev_involutive in E.
        destruct Hw as [Hw _]. contradiction.
      * rewrite <- E, rev_involutive. f_equal.
        rewrite (split_from_blank_prefix sep _ Hsep'). exact IH.
Qed.

Lemma split_ws_lstrip (s : str) : split_ws (lstrip s) = split_ws s.
Proof.
  unfold split_ws. induction s as [|c s IH]; simpl; [reflexivity|].
  destruct (is_space c) eqn:E; [exact IH|]. simpl. rewrite E. reflexivity.
Qed.

Lemma lstrip_blank_prefix (s : str) : exists l, blank l /\ s = l ++ lstrip s.
Proof.
  induction s as [|c s (l & Hb & Hl)]; simpl.
  - exists []. split; reflexivity.
  - destruct (is_space c) eqn:E.
    + exists (c :: l). split.
      * unfold blank. simpl. rewrite E. exact Hb.
      * simpl. rewrite <- Hl. reflexivity.
    + exists []. split; reflexivity.
Qed.

Lemma blank_rev (s : str) : blank s -> blank (rev s).
Proof.
  unfold blank. rewrite !forallb_forall. intros H c Hc.
  apply H. apply in_rev. exact Hc.
Qed.

Lemma split_ws_rstrip (s : str) : split_ws (rstrip s) = split_ws s.
Proof.
  unfold rstrip. destruct (lstrip_blank_prefix (rev s)) as (l & Hb & Hl).
  assert (Hs : s = rev (lstrip (rev s)) ++ rev l).
  { rewrite <- rev_app_distr, <- Hl, rev_involutive. reflexivity. }
  rewrite Hs at 2. unfold split_ws. symmetry.
  apply split_from_blank_suffix. apply blank_rev. exact Hb.
Qed.

Lemma split_ws_strip (s : str) : split_ws (strip s) = split_ws s.
Proof. unfold strip. rewrite split_ws_rstrip. apply split_ws_lstrip. Qed.

Lemma strip_blank (s : str) : blank s -> strip s = [].
Proof. intros H. unfold strip. rewrite (lstrip_blank s H). reflexivity. Qed.

Lemma split_from_nil (cur s : str) :
  split_from cur s = [] -> cur = [] /\ blank s.
Proof.
  unfold blank. revert cur. induction s as [|c s IH]; intros cur; simpl.
  - destruct cur; [split; reflexivity | discriminate].
  - destruct (is_space c) eqn:E.
    + destruct cur; [|discriminate]. intros H. apply IH in H.
      split; [reflexivity | apply H].
    + intros H. apply IH in H. destruct H as [H _]. discriminate H.
Qed.

Lemma canon_name_words (name : str) :
  canon_name name = side_last (split_ws (lower name)).
Proof.
  unfold canon_name. rewrite split_ws_strip.
  destruct (split_ws (lower name)) as [|w rest] eqn:E.
  - apply split_from_nil in E. apply strip_blank. apply E.
  - unfold side_last, is_side. simpl. rewrite orb_false_r. reflexivity.
Qed.

(** C9.  [canon_name] puts the name in lower case and reads its words, the
    pieces that blanks separate, whatever blanks surround them.  When the
    first word is left or right the result is the other words joined by
    underscores, then an underscore and the side; otherwise it is all the
    words joined by underscores.  The words of a name written as words with
    a separator of blanks between them are these words in lower case.  So
    left kidney gives kidney_left, and kidney_left, one word that is no
    side, is left as it is; the map is not the identity: the single word
    left gives _left. *)
Theorem canon_name_side_last (name lp rp sep : str) (ws : list str) :
  canon_name name = side_last (split_ws (lower name))
  /\ (blank lp -> blank rp -> blank sep -> sep <> [] -> Forall is_word ws ->
      canon_name (lp ++ join_with sep ws ++ rp) = side_last (List.map lower ws))
  /\ canon_name (py "left kidney") = py "kidney_left"
  /\ canon_name (py "kidney_left") = py "kidney_left"
  /\ canon_name (py "left") = py "_left".
Proof.
  split; [apply canon_name_words|].
  split; [|repeat split; reflexivity].
  intros Hlp Hrp Hsep Hne Hws.
  rewrite canon_name_words, !lower_app, lower_join.
  assert (Hws' : Forall is_word (List.map lower ws)).
  { apply List.Forall_map. eapply List.Forall_impl; [|exact Hws].
    intros w. apply lower_word. }
  rewrite split_ws_join; auto using lower_blank.
  destruct sep; [congruence | discriminate].
Qed.

Lemma canon_name_side_last_witness :
  canon_name (py "  Right  Adrenal  Gland ") = py "adrenal_gland_right".
Proof.
  exact (proj1 (proj2 (canon_name_side_last [] (py "  ") (py " ") (py "  ")
                         [py "Right"; py "Adrenal"; py "Gland"]))
           eq_refl eq_refl eq_refl ltac:(discriminate)
           ltac:(repeat constructor; discriminate)).
Defined.

(** ** Aggregation *)












(** ** Answers without any token *)

Lemma answer_token_lower (t : str) : In t answer_tokens -> lower t = t.
Proof. simpl. intros [<- | [<- | [<- | [<- | []]]]]; reflexivity. Qed.

Lemma no_token_at (ci : bool) (ans u t : str) :
  no_answer_token ans -> piece u ans -> In t answer_tokens ->
  starts_with t (if ci then lower u else u) = false.
Proof.
  intros Hno Hu Hin.
  destruct (starts_with t (if ci then lower u else u)) eqn:E; [|reflexivity].
  assert (Hl : starts_with t (lower u) = true).
  { destruct ci; [exact E|].
    apply starts_with_lower; [apply answer_token_lower; exact Hin | exact E]. }
  apply starts_with_contains in Hl.
  rewrite <- (Hno t Hin). symmetry.
  apply (contains_in_piece t (lower u) (lower ans)); [|exact Hl].
  apply piece_lower. exact Hu.
Qed.

Lemma sdigit_no_token (ans s : str) :
  no_answer_token ans -> piece s ans -> Image.sdigit s = None.
Proof.
  intros Hno Hs. unfold Image.sdigit.
  destruct (r_star is_open _ (strip s)) as [x|] eqn:E; [|reflexivity].
  apply r_star_some in E. destruct E as (u & Hu & E).
  apply r_tok_some in E. destruct E as (t & Hin & Hst & _).
  rewrite (no_token_at false ans u t) in Hst; [discriminate | exact Hno | |].
  - eapply piece_trans; [apply rest_of_piece; exact Hu|].
    eapply piece_trans; [apply strip_piece | exact Hs].
  - simpl in Hin. simpl. tauto.
Qed.

Lemma syesno_no_token (ans s : str) :
  no_answer_token ans -> piece s ans -> Image.syesno s = None.
Proof.
  intros Hno Hs. unfold Image.syesno.
  destruct (r_star is_open _ (strip s)) as [x|] eqn:E; [|reflexivity].
  apply r_star_some in E. destruct E as (u & Hu & E).
  apply r_tok_some in E. destruct E as (t & Hin & Hst & _).
  rewrite (no_token_at true ans u t) in Hst; [discriminate | exact Hno | |].
  - eapply piece_trans; [apply rest_of_piece; exact Hu|].
    eapply piece_trans; [apply strip_piece | exact Hs].
  - simpl in Hin. simpl. tauto.
Qed.

Lemma se_token_no_token (ans s : str) :
  no_answer_token ans -> piece s ans -> Image.se_token s = None.
Proof.
  intros Hno Hs.
  destruct (Image.se_token s) as [tok|] eqn:E; [|reflexivity].
  apply se_token_some in E. destruct E as (t & u & Hin & Hu & Hst & _).
  rewrite (no_token_at true ans u t) in Hst; [discriminate | exact Hno | | exact Hin].
  eapply piece_trans; [apply rest_of_piece; exact Hu|].
  eapply piece_trans; [apply strip_piece | exact Hs].
Qed.

(** Without a matching direction word in a text, the fallback finds
    nothing in any piece of it. *)
Lemma parse_spatial_relation_none (q s t : str) :
  no_direction_word q s -> piece t s -> parse_spatial_relation q t = None.
Proof.
  intros Hno Ht. unfold parse_spatial_relation. apply scan_pairs_none.
  apply List.Forall_forall. intros [d opp] Hin. unfold undecided. simpl.
  destruct (contains d (lower q)) eqn:Eq; [right | left; reflexivity].
  destruct (Hno d opp Hin Eq) as [Hd Ho].
  split; eapply absent_in_piece; try (apply piece_lower; exact Ht); assumption.
Qed.

(** *** The first clause is a piece of the cleaned text *)

Section CaptureFacts.
Context {A : Type}.

Lemma r_star_cap_some cls (k : str -> K A) acc s x :
  r_star_cap cls k acc s = Some x ->
  exists g rest, s = g ++ rest /\ k (acc ++ g) rest = Some x.
Proof.
  assert (Hstop : forall acc s, k acc s = Some x ->
            exists g rest, s = g ++ rest /\ k (acc ++ g) rest = Some x).
  { intros acc' s' H. exists [], s'. rewrite app_nil_r.
    split; [reflexivity | exact H]. }
  revert acc. induction s as [|c s IH]; intros acc; simpl.
  - apply Hstop.
  - destruct (cls c); [|apply Hstop].
    destruct (r_star_cap cls k (acc ++ [c]) s) as [y|] eqn:E; [|apply Hstop].
    intros H; injection H as ->.
    destruct (IH _ E) as (g & rest & -> & Hk).
    exists (c :: g), rest. rewrite <- app_assoc in Hk.
    split; [reflexivity | exact Hk].
Qed.

Lemma r_opt_cap_some cls (k : str -> K A) s x :
  r_opt_cap cls k s = Some x ->
  exists e rest, s = e ++ rest /\ k e rest = Some x.
Proof.
  assert (Hskip : forall s, k [] s = Some x ->
            exists e rest, s = e ++ rest /\ k e rest = Some x).
  { intros s' H. exists [], s'. split; [reflexivity | exact H]. }
  unfold r_opt_cap. destruct s as [|c s]; [apply Hskip|].
  destruct (cls c); [|apply Hskip].
  destruct (k [c] s) as [y|] eqn:E; [|apply Hskip].
  intros H; injection H as ->. exists [c], s.
  split; [reflexivity | exact E].
Qed.
End CaptureFacts.

Lemma first_clause_piece (cleaned m : str) :
  first_clause cleaned = Some m -> piece m cleaned.
Proof.
  unfold first_clause. intros H.
  apply re_search_some in H. destruct H as (u & Hu & H).
  eapply piece_trans; [|apply rest_of_piece; exact Hu].
  unfold r_plus_cap in H. destruct u as [|c u]; [discriminate|].
  destruct (not_stop c); [|discriminate].
  apply r_star_cap_some in H. destruct H as (g & rest & -> & H).
  apply r_opt_cap_some in H. destruct H as (e & rest' & -> & H).
  unfold r_done in H. injection H as <-.
  exists [], rest'. simpl. rewrite <- !app_assoc. reflexivity.
Qed.

(** *** Removing the prompt lines only deletes characters *)

Lemma remove_from_In (p : str) (c : ascii) (s : str) (skip : nat) :
  In c (remove_from p skip s) -> In c s.
Proof.
  revert skip. induction s as [|a s IH]; intros skip; simpl; [tauto|].
  destruct skip.
  - destruct (starts_with p (a :: s)).
    + intros H. right. eapply IH. exact H.
    + simpl. intros [H | H]; [left; exact H | right; eapply IH; exact H].
  - intros H. right. eapply IH. exact H.
Qed.

Lemma strip_prompt_In (prompt txt : str) (c : ascii) :
  In c (strip_prompt prompt txt) -> In c txt.
Proof.
  unfold strip_prompt. generalize (splitlines prompt). intros ls.
  revert txt. induction ls as [|l ls IH]; intros txt; simpl; [tauto|].
  intros H. apply IH in H. destruct (strip l); [exact H|].
  unfold remove_all in H. eapply remove_from_In. exact H.
Qed.

Lemma piece_In (c : ascii) (t s : str) : piece t s -> In c t -> In c s.
Proof.
  intros (l & r & ->) H. apply in_or_app. right. apply in_or_app. left. exact H.
Qed.

Lemma contains_single (c : ascii) (s : str) :
  contains [c] s = true <-> In c s.
Proof.
  rewrite contains_app. split.
  - intros (l & r & ->). apply in_or_app. right. left. reflexivity.
  - intros H. apply in_split in H. destruct H as (l & r & ->). exists l, r.
    reflexivity.
Qed.

Lemma keyword_digit_no_token (ans prompt : str) :
  no_answer_token ans ->
  keyword_digit (strip_prompt prompt (strip ans)) = None.
Proof.
  intros Hno. set (cleaned := strip_prompt prompt (strip ans)).
  destruct (keyword_digit cleaned) as [g|] eqn:E; [|reflexivity]. exfalso.
  unfold keyword_digit in E.
  apply re_search_some in E. destruct E as (u1 & Hu1 & E).
  apply r_tok_some in E. destruct E as (kw & _ & _ & E).
  apply r_opt_tok_some in E. destruct E as (u2 & Hu2 & E).
  apply r_star_some in E. destruct E as (u3 & Hu3 & E).
  apply r_tok_some in E. destruct E as (t & Hin & Hst & _).
  assert (Hp : piece u3 cleaned).
  { apply rest_of_piece.
    eapply rest_of_trans; [exact Hu3|].
    eapply rest_of_trans; [exact Hu2|].
    eapply rest_of_trans; [apply rest_of_skipn | exact Hu1]. }
  assert (Hc : exists c, t = [c] /\ In [c] answer_tokens /\ lower_char c = c).
  { simpl in Hin. destruct Hin as [<- | [<- | []]]; eexists; simpl; eauto. }
  destruct Hc as (c & -> & Hin' & Hlow).
  apply starts_with_contains in Hst.
  assert (Hin_ans : In c ans).
  { apply (piece_In c (strip ans) ans (strip_piece ans)).
    apply (strip_prompt_In prompt). fold cleaned.
    apply contains_single. eapply contains_in_piece; [exact Hp | exact Hst]. }
  specialize (Hno [c] Hin').
  assert (Ht : contains [c] (lower ans) = true).
  { apply contains_single. rewrite <- Hlow. unfold lower. apply in_map. exact Hin_ans. }
  congruence.
Qed.

Lemma hyphen_answer_parsed :
  Image.parse_model_answer hyphen_answer hyphen_question hyphen_prompt
  = (Some 1%Z, Some (py "It is on the left side")).
Proof. vm_compute. reflexivity. Qed.

(** C4, as stated, fails: the answer below holds none of 0, 1, yes, no and
    no direction word, yet the removal of the prompt lines turns it into a
    text with the word left, and the parser returns 1. *)
Lemma unparseable_claim_counterexample : ~ unparseable_claim.
Proof.
  intros H.
  specialize (H hyphen_answer hyphen_question hyphen_prompt).
  rewrite hyphen_answer_parsed in H.
  assert (Hnone : Some 1%Z = None); [|discriminate Hnone].
  apply H.
  - intros t Hin. simpl in Hin.
    repeat (destruct Hin as [<- | Hin]; [vm_compute; reflexivity|]).
    destruct Hin.
  - intros d opp Hin _. simpl in Hin.
    repeat (destruct Hin as [Hin | Hin];
            [injection Hin as <- <-; split; vm_compute; reflexivity|]).
    destruct Hin.
Qed.

(** An answer that starts with the letters of a token is parsed as that
    token: the token patterns have no word boundary. *)
Example not_sure_parsed (q prompt : str) :
  Image.parse_model_answer (py "Not sure.") q prompt = (Some 0%Z, None).
Proof. reflexivity. Qed.

(** C4, amended.  When the answer holds none of 0, 1, yes, no (in any
    case, not even inside a word), and neither the answer nor what is left
    of it once the prompt lines are removed holds a direction word that
    matches the question, [parse_model_answer] of either script returns no
    label, with the cleaned text as residual. *)
Theorem unparseable_without_tokens (ans q prompt : str) :
  no_answer_token ans ->
  no_direction_word q ans ->
  no_direction_word q (strip_prompt prompt (strip ans)) ->
  Image.parse_model_answer ans q prompt
  = (None, Some (strip_prompt prompt (strip ans)))
  /\ Anatomy.parse_model_answer ans q prompt
     = (None, Some (strip_prompt prompt (strip ans))).
Proof.
  intros Htok Hdir Hclean.
  rewrite parse_model_answer_agree.
  assert (H : Image.parse_model_answer ans q prompt
              = (None, Some (strip_prompt prompt (strip ans)))); [|split; exact H].
  pose proof (strip_piece ans) as Hp.
  unfold Image.parse_model_answer.
  rewrite (sdigit_no_token ans _ Htok Hp), (syesno_no_token ans _ Htok Hp),
    (se_token_no_token ans _ Htok Hp).
  simpl opt_in. cbv beta iota.
  assert (Hrest : prompt_tiers (strip ans) q prompt
                  = (None, Some (strip_prompt prompt (strip ans)))).
  { unfold prompt_tiers.
    rewrite (keyword_digit_no_token ans prompt Htok).
    destruct (first_clause (strip_prompt prompt (strip ans))) as [m|] eqn:Em;
      [|reflexivity].
    rewrite (parse_spatial_relation_none q _ (strip m) Hclean); [reflexivity|].
    eapply piece_trans; [apply strip_piece|].
    apply first_clause_piece. exact Em. }
  unfold sentence_tiers.
  rewrite (parse_spatial_relation_none q ans (strip ans) Hdir Hp), Hrest.
  destruct (short_sentence (strip ans)); reflexivity.
Qed.

Lemma unparseable_without_tokens_witness :
  Image.parse_model_answer (py "I think it's hard to tell.") hyphen_question
    hyphen_prompt
  = (None, Some (py "I think it's hard to tell.")).
Proof.
  refine (proj1 (unparseable_without_tokens (py "I think it's hard to tell.")
                   hyphen_question hyphen_prompt _ _ _)).
  - intros t Hin. simpl in Hin.
    repeat (destruct Hin as [<- | Hin]; [vm_compute; reflexivity|]).
    destruct Hin.
  - intros d opp Hin _. simpl in Hin.
    repeat (destruct Hin as [Hin | Hin];
            [injection Hin as <- <-; split; vm_compute; reflexivity|]).
    destruct Hin.
  - intros d opp Hin _. simpl in Hin.
    repeat (destruct Hin as [Hin | Hin];
            [injection Hin as <- <-; split; vm_compute; reflexivity|]).
    destruct Hin.
Defined.

(** * Further properties of the code *)

(** ** The parser and the blanks around the answer *)

Lemma lstrip_app_blank (lp s : str) : blank lp -> lstrip (lp ++ s) = lstrip s.
Proof.
  unfold blank. induction lp as [|c lp IH]; simpl; [reflexivity|].
  intros H. apply andb_true_iff in H. destruct H as [Hc Hl].
  rewrite Hc. apply IH. exact Hl.
Qed.

Lemma rstrip_app_blank (s rp : str) : blank rp -> rstrip (s ++ rp) = rstrip s.
Proof.
  intros H. unfold rstrip. rewrite rev_app_distr.
  rewrite lstrip_app_blank by (apply blank_rev; exact H). reflexivity.
Qed.

Lemma strip_app_blank (lp s rp : str) :
  blank lp -> blank rp -> strip (lp ++ s ++ rp) = strip s.
Proof.
  intros Hl Hr. unfold strip. rewrite (lstrip_app_blank lp _ Hl).
  induction s as [|c s IH]; simpl.
  - rewrite (lstrip_blank rp Hr). reflexivity.
  - destruct (is_space c); [exact IH|].
    apply (rstrip_app_blank (c :: s) rp Hr).
Qed.

(** A text that does not start with a blank. *)
Lemma lstrip_fixed (s : str) :
  match s with c :: _ => is_space c = false | [] => True end -> lstrip s = s.
Proof. destruct s as [|c s]; simpl; [reflexivity | intros ->; reflexivity]. Qed.

Lemma lstrip_no_lead (s : str) :
  match lstrip s with c :: _ => is_space c = false | [] => True end.
Proof.
  induction s as [|c s IH]; simpl; [exact I|].
  destruct (is_space c) eqn:E; [exact IH | exact E].
Qed.

Lemma lstrip_idem (s : str) : lstrip (lstrip s) = lstrip s.
Proof. apply lstrip_fixed. apply lstrip_no_lead. Qed.

Lemma rstrip_idem (s : str) : rstrip (rstrip s) = rstrip s.
Proof. unfold rstrip. rewrite rev_involutive, lstrip_idem. reflexivity. Qed.

Lemma strip_idem (s : str) : strip (strip s) = strip s.
Proof.
  unfold strip.
  assert (H : lstrip (rstrip (lstrip s)) = rstrip (lstrip s)).
  { apply lstrip_fixed.
    pose proof (lstrip_no_lead s) as Hn.
    destruct (rstrip_prefix (lstrip s)) as [r Hr].
    destruct (rstrip (lstrip s)) as [|c t]; [exact I|].
    rewrite Hr in Hn. exact Hn. }
  rewrite H. apply rstrip_idem.
Qed.

(** Blanks before and after the answer do not change what either parser
    returns. *)
Theorem parse_model_answer_blanks (lp rp ans q prompt : str) :
  blank lp -> blank rp ->
  Image.parse_model_answer (lp ++ ans ++ rp) q prompt
  = Image.parse_model_answer ans q prompt
  /\ Anatomy.parse_model_answer (lp ++ ans ++ rp) q prompt
     = Anatomy.parse_model_answer ans q prompt.
Proof.
  intros Hl Hr. rewrite !parse_model_answer_agree.
  unfold Image.parse_model_answer.
  rewrite (strip_app_blank lp ans rp Hl Hr). split; reflexivity.
Qed.

Lemma parse_model_answer_blanks_witness :
  Image.parse_model_answer (py "  " ++ py "The answer is 1 maybe" ++ [LF]) [] []
  = Image.parse_model_answer (py "The answer is 1 maybe") [] [].
Proof.
  exact (proj1 (parse_model_answer_blanks (py "  ") [LF]
                  (py "The answer is 1 maybe") [] [] eq_refl eq_refl)).
Defined.

(** ** A token at the start of the answer *)

Lemma open_not_initial (c : ascii) :
  is_open c = true ->
  token_initial c = false /\ token_initial (lower_char c) = false.
Proof. destruct c as [[] [] [] [] [] [] [] []]; vm_compute; auto; discriminate. Qed.

Lemma initial_differs (c0 c : ascii) :
  token_initial c0 = true -> token_initial c = false -> Ascii.eqb c0 c = false.
Proof.
  intros H0 H. destruct (Ascii.eqb c0 c) eqn:E; [|reflexivity].
  apply Ascii.eqb_eq in E. subst. congruence.
Qed.

Lemma lower_char_digit (a d : ascii) :
  In d (py "01") -> Ascii.eqb d a = Ascii.eqb d (lower_char a).
Proof.
  simpl. intros [<- | [<- | []]];
    destruct a as [[] [] [] [] [] [] [] []]; reflexivity.
Qed.

Section RunFacts.
Context {A : Type}.

(** A greedy repetition over a run [o] of the class that stops at [u]:
    when the rest of the pattern fails everywhere inside the run, the
    match is the one at [u]. *)
Lemma r_star_run cls (k : K A) (o u : str) :
  forallb cls o = true ->
  (forall p v, o = p ++ v -> v <> [] -> k (v ++ u) = None) ->
  match u with c :: _ => cls c = false | [] => True end ->
  r_star cls k (o ++ u) = k u.
Proof.
  intros Ho Hfail Hu. induction o as [|a o IH]; simpl.
  - destruct u as [|c u]; simpl; [reflexivity | rewrite Hu; reflexivity].
  - simpl in Ho. apply andb_true_iff in Ho. destruct Ho as [Ha Ho].
    rewrite Ha, IH.
    + destruct (k u) eqn:E; [reflexivity|].
      apply (Hfail [] (a :: o)); [reflexivity | discriminate].
    + exact Ho.
    + intros p v -> Hv. apply (Hfail (a :: p) v); [reflexivity | exact Hv].
Qed.

Lemma r_tok_fails_on_open ci toks (k : str -> K A) (c : ascii) (s : str) :
  is_open c = true -> Forall initial_ok toks ->
  r_tok ci toks k (c :: s) = None.
Proof.
  intros Hc Htoks. apply open_not_initial in Hc. destruct Hc as [Hc Hl].
  induction Htoks as [|t ts Ht _ IH]; [reflexivity|].
  destruct t as [|c0 t]; [destruct Ht|]. simpl in Ht.
  assert (E : starts_with (c0 :: t) (if ci then lower (c :: s) else c :: s) = false).
  { destruct ci; simpl; rewrite (initial_differs c0 _ Ht); auto. }
  cbn [r_tok]. rewrite E. exact IH.
Qed.

(** The three token patterns all start at the end of the run of opening
    characters. *)
Lemma open_run_then_token ci toks (k : str -> K A) (o u : str) :
  forallb is_open o = true -> Forall initial_ok toks ->
  match u with c :: _ => is_open c = false | [] => True end ->
  r_star is_open (r_tok ci toks k) (o ++ u) = r_tok ci toks k u.
Proof.
  intros Ho Htoks Hu. apply r_star_run; [exact Ho | | exact Hu].
  intros p v -> Hv. destruct v as [|c v]; [congruence|].
  simpl. apply r_tok_fails_on_open; [|exact Htoks].
  rewrite forallb_app in Ho. apply andb_true_iff in Ho. destruct Ho as [_ Ho].
  simpl in Ho. apply andb_true_iff in Ho. apply Ho.
Qed.
End RunFacts.

Lemma answer_tokens_initial : Forall initial_ok answer_tokens.
Proof. repeat constructor. Qed.

Lemma digit_tokens_initial : Forall initial_ok digit_tokens.
Proof. repeat constructor. Qed.

Lemma yesno_tokens_initial : Forall initial_ok yesno_tokens.
Proof. repeat constructor. Qed.

(** A text that starts with a token does not start with an opening
    character. *)
Lemma token_head_not_open (t rest : str) :
  In (lower t) answer_tokens ->
  match t ++ rest with c :: _ => is_open c = false | [] => True end.
Proof.
  intros Hin. destruct t as [|a t]; simpl.
  - simpl in Hin. repeat (destruct Hin as [Hin | Hin]; [discriminate Hin|]).
    destruct Hin.
  - destruct (is_open a) eqn:E; [|reflexivity].
    apply open_not_initial in E. destruct E as [_ E].
    simpl in Hin.
    repeat (destruct Hin as [Hin | Hin];
            [injection Hin as Ha _; rewrite <- Ha in E; discriminate E|]).
    destruct Hin.
Qed.

(** The characters that [str.lower] sends to a character of a token. *)
Lemma lower_char_cases (a x : ascii) :
  In x (py "01yesno") -> lower_char a = x ->
  a = x \/ a = ascii_of_N (code x - 32).
Proof.
  simpl. intros [<- | [<- | [<- | [<- | [<- | [<- | [<- | []]]]]]]];
    destruct a as [[] [] [] [] [] [] [] []]; intros H;
    try discriminate H; auto.
Qed.

Ltac absurd_case :=
  match goal with
  | H : lower_char _ = _ |- _ => vm_compute in H; discriminate H
  end.

Ltac settle_token :=
  try absurd_case;
  simpl;
  repeat match goal with
         | |- context [match ?t with Some _ => _ | None => _ end] =>
             match t with
             | r_star _ _ _ =>
                 let E := fresh "E" in
                 destruct t eqn:E; [apply r_star_eos_ret in E; subst|]
             end
         end;
  reflexivity.

(** When the stripped answer is a run of opening characters followed by
    one of 0, 1, yes, no in any case, the label is the one of this token,
    whatever follows the token, the question and the prompt: the patterns
    do not ask for the end of a word. *)
Theorem leading_token_decides (ans o t rest q prompt : str) :
  strip ans = o ++ t ++ rest ->
  forallb is_open o = true ->
  In (lower t) answer_tokens ->
  Image.parse_model_answer ans q prompt = (Some (token_label t), None)
  /\ Anatomy.parse_model_answer ans q prompt = (Some (token_label t), None).
Proof.
  intros Hs Ho Hin. rewrite parse_model_answer_agree.
  assert (H : Image.parse_model_answer ans q prompt = (Some (token_label t), None));
    [|split; exact H].
  pose proof (token_head_not_open t rest Hin) as Hu.
  unfold Image.parse_model_answer, Image.sdigit, Image.syesno, Image.se_token,
    re_match.
  rewrite strip_idem, Hs.
  rewrite !open_run_then_token;
    auto using answer_tokens_initial, digit_tokens_initial, yesno_tokens_initial.
  unfold token_label. clear Hs Hu Ho.
  simpl in Hin. destruct Hin as [Hin | [Hin | [Hin | [Hin | []]]]].
  - destruct t as [|a [|b t]]; try discriminate Hin.
    injection Hin as Ha. symmetry in Ha.
    destruct (lower_char_cases a "0"%char ltac:(simpl; auto 8) Ha) as [-> | ->];
      settle_token.
  - destruct t as [|a [|b t]]; try discriminate Hin.
    injection Hin as Ha. symmetry in Ha.
    destruct (lower_char_cases a "1"%char ltac:(simpl; auto 8) Ha) as [-> | ->];
      settle_token.
  - destruct t as [|a [|b [|c [|d t]]]]; try discriminate Hin.
    injection Hin as Ha Hb Hc. symmetry in Ha, Hb, Hc.
    destruct (lower_char_cases a "y"%char ltac:(simpl; auto 8) Ha) as [-> | ->];
      destruct (lower_char_cases b "e"%char ltac:(simpl; auto 8) Hb) as [-> | ->];
      destruct (lower_char_cases c "s"%char ltac:(simpl; auto 8) Hc) as [-> | ->];
      settle_token.
  - destruct t as [|a [|b [|c t]]]; try discriminate Hin.
    injection Hin as Ha Hb. symmetry in Ha, Hb.
    destruct (lower_char_cases a "n"%char ltac:(simpl; auto 8) Ha) as [-> | ->];
      destruct (lower_char_cases b "o"%char ltac:(simpl; auto 8) Hb) as [-> | ->];
      settle_token.
Qed.

Lemma leading_token_decides_witness :
  Image.parse_model_answer (py " (Nothing is visible") [] []
  = (Some 0%Z, None).
Proof.
  exact (proj1 (leading_token_decides (py " (Nothing is visible") (py "(")
                  (py "No") (py "thing is visible") [] []
                  eq_refl eq_refl ltac:(simpl; auto 8))).
Defined.

(** ** The shape of canonical names *)

Lemma lower_char_idem (c : ascii) : lower_char (lower_char c) = lower_char c.
Proof. destruct c as [[] [] [] [] [] [] [] []]; reflexivity. Qed.

Lemma lower_idem (s : str) : lower (lower s) = lower s.
Proof.
  unfold lower. rewrite List.map_map. apply List.map_ext. apply lower_char_idem.
Qed.

Lemma no_blank_rev (s : str) : no_blank s -> no_blank (rev s).
Proof.
  unfold no_blank. rewrite !forallb_forall. intros H c Hc.
  apply H. apply in_rev. exact Hc.
Qed.

Lemma split_from_words (cur s : str) :
  no_blank cur -> Forall is_word (split_from cur s).
Proof.
  revert cur. induction s as [|c s IH]; intros cur Hcur; simpl.
  - destruct cur as [|a cur]; [constructor|].
    constructor; [|constructor]. split.
    + intros E. apply (f_equal (@rev ascii)) in E.
      rewrite rev_involutive in E. discriminate E.
    + apply (no_blank_rev (a :: cur)). exact Hcur.
  - destruct (is_space c) eqn:E.
    + destruct cur as [|a cur]; [apply IH; reflexivity|].
      constructor; [|apply IH; reflexivity]. split.
      * intros E'. apply (f_equal (@rev ascii)) in E'.
        rewrite rev_involutive in E'. discriminate E'.
      * apply (no_blank_rev (a :: cur)). exact Hcur.
    + apply IH. unfold no_blank. simpl. rewrite E. exact Hcur.
Qed.

Lemma split_ws_words (s : str) : Forall is_word (split_ws s).
Proof. apply split_from_words. reflexivity. Qed.

Lemma split_from_lower (cur s : str) :
  split_from (lower cur) (lower s) = List.map lower (split_from cur s).
Proof.
  assert (Hrev : forall a t, rev (lower (a :: t)) = lower (rev (a :: t))).
  { intros a t. unfold lower. symmetry. apply List.map_rev. }
  revert cur. induction s as [|c s IH]; intros cur; simpl.
  - destruct cur as [|a cur]; [reflexivity|].
    change (lower_char a :: lower cur) with (lower (a :: cur)).
    rewrite Hrev. reflexivity.
  - rewrite lower_char_space.
    pose proof (IH []) as IH0. change (lower []) with (@nil ascii) in IH0.
    destruct (is_space c).
    + destruct cur as [|a cur]; [exact IH0|].
      change (lower_char a :: lower cur) with (lower (a :: cur)).
      rewrite Hrev, IH0. reflexivity.
    + apply (IH (c :: cur)).
Qed.

Lemma split_ws_lower_case (s : str) :
  Forall (fun w => lower w = w) (split_ws (lower s)).
Proof.
  unfold split_ws. change (@nil ascii) with (lower []) at 1.
  rewrite (split_from_lower [] s).
  apply List.Forall_map. apply List.Forall_forall. intros w _. apply lower_idem.
Qed.

Lemma is_side_cases (w : str) :
  is_side w = true <-> w = py "left" \/ w = py "right".
Proof. unfold is_side. rewrite orb_true_iff, !str_eqb_eq. reflexivity. Qed.

Lemma join_underscore_no_blank (ws : list str) :
  Forall is_word ws -> no_blank (join_with (py "_") ws).
Proof.
  unfold no_blank. induction 1 as [|w ws [_ Hw] Hws IH]; [reflexivity|].
  destruct ws as [|w' ws]; [exact Hw|].
  change (join_with (py "_") (w :: w' :: ws))
    with (w ++ py "_" ++ join_with (py "_") (w' :: ws)).
  rewrite !forallb_app, Hw, IH. reflexivity.
Qed.

Lemma join_underscore_lower (ws : list str) :
  Forall (fun w => lower w = w) ws ->
  lower (join_with (py "_") ws) = join_with (py "_") ws.
Proof.
  intros H. rewrite lower_join. f_equal.
  induction H as [|w ws Hw _ IH]; simpl; [reflexivity|]. rewrite Hw, IH. reflexivity.
Qed.

Lemma join_nonempty (sep : str) (ws : list str) :
  Forall is_word ws -> ws <> [] -> join_with sep ws <> [].
Proof.
  intros H Hne. destruct H as [|w ws [Hw _] _]; [congruence|].
  destruct ws; simpl; [exact Hw|]. destruct w; [congruence | discriminate].
Qed.

Lemma side_no_underscore (o : str) :
  In "_"%char o -> is_side o = false.
Proof.
  intros Hin. destruct (is_side o) eqn:E; [|reflexivity].
  apply is_side_cases in E. destruct E as [-> | ->]; simpl in Hin;
    repeat (destruct Hin as [Hin | Hin]; [discriminate Hin|]); destruct Hin.
Qed.

(** The name built from the words of a lower-cased text is one word in
    lower case, and it is not a side word. *)
Lemma side_last_shape (ws : list str) :
  Forall is_word ws -> Forall (fun w => lower w = w) ws -> ws <> [] ->
  is_word (side_last ws) /\ lower (side_last ws) = side_last ws
  /\ is_side (side_last ws) = false.
Proof.
  intros Hw Hl Hne. destruct ws as [|w rest]; [congruence|]. clear Hne.
  inversion Hw as [|? ? Hw1 Hwr]; subst. inversion Hl as [|? ? Hl1 Hlr]; subst.
  unfold side_last. destruct (is_side w) eqn:Es.
  - split; [split|split].
    + destruct (join_with (py "_") rest); discriminate.
    + unfold no_blank in *. rewrite !forallb_app.
      rewrite (join_underscore_no_blank rest Hwr). destruct Hw1 as [_ ->].
      reflexivity.
    + rewrite !lower_app, (join_underscore_lower rest Hlr), Hl1. reflexivity.
    + apply side_no_underscore. apply in_or_app. right. left. reflexivity.
  - split; [split|split].
    + apply join_nonempty; [exact Hw | discriminate].
    + apply (join_underscore_no_blank (w :: rest) Hw).
    + apply (join_underscore_lower (w :: rest) Hl).
    + destruct rest as [|w' rest]; [exact Es|].
      apply side_no_underscore.
      change (join_with (py "_") (w :: w' :: rest))
        with (w ++ py "_" ++ join_with (py "_") (w' :: rest)).
      apply in_or_app. right. left. reflexivity.
Qed.

(** The result of [canon_name] holds no blank and no capital letter, and
    it is empty only when the name holds nothing but blanks. *)
Theorem canon_name_shape (name : str) :
  no_blank (canon_name name)
  /\ lower (canon_name name) = canon_name name
  /\ (canon_name name = [] <-> blank name).
Proof.
  rewrite canon_name_words.
  pose proof (split_ws_words (lower name)) as Hw.
  pose proof (split_ws_lower_case name) as Hl.
  destruct (split_ws (lower name)) as [|w rest] eqn:E.
  - split; [reflexivity|]. split; [reflexivity|]. split; [|reflexivity].
    intros _. apply split_from_nil in E. destruct E as [_ E].
    unfold blank in *. rewrite forallb_forall in *. intros c Hc.
    rewrite <- lower_char_space. apply E. apply in_map. exact Hc.
  - destruct (side_last_shape (w :: rest) Hw Hl ltac:(discriminate))
      as ([Hne Hnb] & Hlow & _).
    split; [exact Hnb|]. split; [exact Hlow|]. split.
    + intros H. contradiction.
    + intros Hb. apply lower_blank in Hb.
      unfold split_ws in E. rewrite (split_from_blank [] _ Hb) in E.
      discriminate E.
Qed.

(** [canon_name] is idempotent: a canonical name is left as it is. *)
Theorem canon_name_idempotent (name : str) :
  canon_name (canon_name name) = canon_name name.
Proof.
  rewrite (canon_name_words name).
  pose proof (split_ws_words (lower name)) as Hw.
  pose proof (split_ws_lower_case name) as Hl.
  destruct (split_ws (lower name)) as [|w rest] eqn:E; [reflexivity|].
  destruct (side_last_shape (w :: rest) Hw Hl ltac:(discriminate))
    as (Hword & Hlow & Hside).
  set (o := side_last (w :: rest)) in *.
  rewrite canon_name_words, Hlow.
  assert (Hs : split_ws o = [o]).
  { pose proof (split_ws_join [] [] (py " ") [o]) as H.
    simpl in H. rewrite app_nil_r in H. apply H; try reflexivity.
    - discriminate.
    - constructor; [exact Hword | constructor]. }
  rewrite Hs. simpl. rewrite Hside. reflexivity.
Qed.

(** ** The loop of the anatomy script *)

Module AnatomyRunFacts.
Import AnatomyRun.

(** A property of the loop state that depends on the number of records of
    the subset seen so far. *)
Lemma eval_loop_counted (centre_map : CentreMap) (P : nat -> EvalState -> Prop) :
  P 0 init_state ->
  (forall fn n st r,
      P n st ->
      P (n + (if in_subset_record r then 1 else 0))
        (eval_record centre_map fn st r)) ->
  forall data, P (subset_count data) (eval_loop centre_map data).
Proof.
  intros Hinit Hstep data. unfold eval_loop, subset_count, records.
  assert (Hgen : forall n st, P n st ->
            P (n + length (List.filter in_subset_record
                             (concat (List.map results_call data))))
              (fold_left
                 (fun st entry =>
                    fold_left (eval_record centre_map (file_name entry))
                      (results_call entry) st) data st)).
  { induction data as [|e data IH]; intros n st Hst; simpl.
    - rewrite Nat.add_0_r. exact Hst.
    - rewrite List.filter_app, length_app, Nat.add_assoc. apply IH.
      generalize (file_name e). intros fn. revert n st Hst.
      induction (results_call e) as [|r rs IHr]; intros n st Hst; simpl.
      + rewrite Nat.add_0_r. exact Hst.
      + specialize (Hstep fn n st r Hst).
        apply IHr in Hstep. destruct (in_subset_record r); simpl.
        * replace (n + S (length (List.filter in_subset_record rs)))
            with (n + 1 + length (List.filter in_subset_record rs)) by lia.
          exact Hstep.
        * rewrite Nat.add_0_r in Hstep. exact Hstep. }
  apply (Hgen 0 init_state Hinit).
Qed.

Lemma eval_record_skipped (centre_map : CentreMap) (fn : str)
  (st : EvalState) (r : QARecord) :
  in_subset_record r = false -> eval_record centre_map fn st r = st.
Proof. unfold eval_record, in_subset_record. intros ->. reflexivity. Qed.

Lemma anatomy_view_image (centre_map : CentreMap) (fn : str)
  (st : EvalState) (r : QARecord) (pa : Z) :
  image_tallies (anatomy_view centre_map fn st r pa) = image_tallies st.
Proof.
  unfold anatomy_view.
  destruct (centres_of centre_map fn (object_names r)) as [[cx1 cx2]|];
    reflexivity.
Qed.

Lemma image_view_anatomy (st : EvalState) (r : QARecord) (pa : Z) :
  anatomy_tallies (image_view st r pa) = anatomy_tallies st.
Proof. unfold image_view. destruct (expected_answer r); reflexivity. Qed.

Lemma image_view_consistent (n : nat) (st : EvalState) (r : QARecord) (pa : Z) :
  tallies_consistent n (image_tallies st) ->
  tallies_consistent (n + 1) (image_tallies (image_view st r pa)).
Proof.
  unfold tallies_consistent, image_tallies, image_view.
  intros (H1 & H2 & H3 & H4).
  destruct (expected_answer r) as [e|]; simpl.
  - rewrite !length_app. simpl. destruct (Z.eqb pa e); simpl; repeat split; lia.
  - repeat split; lia.
Qed.

Lemma anatomy_view_consistent (centre_map : CentreMap) (fn : str) (n : nat)
  (st : EvalState) (r : QARecord) (pa : Z) :
  tallies_consistent n (anatomy_tallies st) ->
  tallies_consistent (n + 1)
    (anatomy_tallies (anatomy_view centre_map fn st r pa)).
Proof.
  unfold tallies_consistent, anatomy_tallies, anatomy_view.
  intros (H1 & H2 & H3 & H4).
  destruct (centres_of centre_map fn (object_names r)) as [[cx1 cx2]|]; simpl.
  - rewrite !length_app. simpl.
    destruct (Z.eqb pa (anatomy_truth (question r) cx1 cx2)); simpl;
      repeat split; lia.
  - repeat split; lia.
Qed.

Lemma anatomy_view_bits (centre_map : CentreMap) (fn : str)
  (st : EvalState) (r : QARecord) (pa : Z) :
  Forall is_bit (anat_targs st) ->
  Forall is_bit (anat_targs (anatomy_view centre_map fn st r pa)).
Proof.
  intros H. unfold anatomy_view.
  destruct (centres_of centre_map fn (object_names r)) as [[cx1 cx2]|]; simpl;
    [|exact H].
  apply Forall_app. split; [exact H|]. constructor; [|constructor].
  destruct (anatomy_truth_spec (question r) cx1 cx2) as [_ [E | E]];
    rewrite E; [right | left]; reflexivity.
Qed.

Lemma image_view_targs (st : EvalState) (r : QARecord) (pa : Z) :
  anat_targs (image_view st r pa) = anat_targs st.
Proof. unfold image_view. destruct (expected_answer r); reflexivity. Qed.

End AnatomyRunFacts.

(** In both views of [eval_run] the correct and the wrong counts add up
    to the total, which is the length of the lists of predictions and of
    targets and is at most the number of left/right records; the anatomy
    targets are 0 or 1. *)
Theorem eval_run_tallies (centre_map : CentreMap) (data : RunFile) :
  tallies_consistent (subset_count data)
    (anatomy_tallies (AnatomyRun.eval_loop centre_map data))
  /\ tallies_consistent (subset_count data)
       (image_tallies (AnatomyRun.eval_loop centre_map data))
  /\ Forall is_bit (AnatomyRun.anat_targs (AnatomyRun.eval_loop centre_map data)).
Proof.
  apply (AnatomyRunFacts.eval_loop_counted centre_map
           (fun n st => tallies_consistent n (anatomy_tallies st)
                        /\ tallies_consistent n (image_tallies st)
                        /\ Forall is_bit (AnatomyRun.anat_targs st))).
  - simpl. repeat split; auto.
  - intros fn n st r (Ha & Hi & Hb).
    unfold AnatomyRun.eval_record, in_subset_record.
    destruct (AnatomyRun.in_subset (question r)).
    + split; [|split].
      * apply AnatomyRunFacts.anatomy_view_consistent.
        rewrite AnatomyRunFacts.image_view_anatomy.
        unfold tallies_consistent, anatomy_tallies in *. intuition lia.
      * rewrite AnatomyRunFacts.anatomy_view_image.
        apply AnatomyRunFacts.image_view_consistent. exact Hi.
      * apply AnatomyRunFacts.anatomy_view_bits.
        rewrite AnatomyRunFacts.image_view_targs. exact Hb.
    + rewrite Nat.add_0_r. auto.
Qed.

(** ** Which records and which centres the anatomy script reads *)

Lemma fold_left_filter_skipped {S T : Type} (step : S -> T -> S)
  (keep : T -> bool) (l : list T) (st : S) :
  (forall st x, keep x = false -> step st x = st) ->
  fold_left step (List.filter keep l) st = fold_left step l st.
Proof.
  intros Hskip. revert st. induction l as [|x l IH]; intros st; simpl;
    [reflexivity|].
  destruct (keep x) eqn:E; simpl; [apply IH|].
  rewrite (Hskip st x E). apply IH.
Qed.

(** The records whose question holds neither left nor right play no part:
    [eval_run] gives the same result once they are taken out. *)
Theorem eval_run_subset_only (centre_map : CentreMap) (data : RunFile) :
  AnatomyRun.eval_run centre_map (subset_only data)
  = AnatomyRun.eval_run centre_map data.
Proof.
  assert (H : AnatomyRun.eval_loop centre_map (subset_only data)
              = AnatomyRun.eval_loop centre_map data).
  { unfold AnatomyRun.eval_loop, subset_only.
    generalize AnatomyRun.init_state.
    induction data as [|e data IH]; intros st; simpl; [reflexivity|].
    rewrite fold_left_filter_skipped.
    - apply IH.
    - intros st' r Hr. apply AnatomyRunFacts.eval_record_skipped. exact Hr. }
  unfold AnatomyRun.eval_run. rewrite H. reflexivity.
Qed.

Lemma eval_record_image_tallies (cm cm' : CentreMap) (fn fn' : str)
  (st st' : AnatomyRun.EvalState) (r : QARecord) :
  image_tallies st = image_tallies st' ->
  image_tallies (AnatomyRun.eval_record cm fn st r)
  = image_tallies (AnatomyRun.eval_record cm' fn' st' r).
Proof.
  intros H. unfold AnatomyRun.eval_record.
  destruct (AnatomyRun.in_subset (question r)); [|exact H].
  rewrite !AnatomyRunFacts.anatomy_view_image.
  unfold image_tallies, AnatomyRun.image_view in *.
  injection H as H1 H2 H3 H4 H5.
  destruct (expected_answer r); simpl; congruence.
Qed.

(** The image view of [eval_run] does not depend on the centre map: its
    predictions, targets and counts are the same for any two maps. *)
Theorem eval_run_image_view_independent (cm cm' : CentreMap) (data : RunFile) :
  image_tallies (AnatomyRun.eval_loop cm data)
  = image_tallies (AnatomyRun.eval_loop cm' data).
Proof.
  unfold AnatomyRun.eval_loop.
  assert (Hgen : forall st st', image_tallies st = image_tallies st' ->
            image_tallies
              (fold_left
                 (fun st entry =>
                    fold_left (AnatomyRun.eval_record cm (file_name entry))
                      (results_call entry) st) data st)
            = image_tallies
                (fold_left
                   (fun st entry =>
                      fold_left (AnatomyRun.eval_record cm' (file_name entry))
                        (results_call entry) st) data st')).
  { induction data as [|e data IH]; intros st st' H; simpl; [exact H|].
    apply IH. generalize (file_name e). intros fn. revert st st' H.
    induction (results_call e) as [|r rs IHr]; intros st st' H; simpl;
      [exact H|].
    apply IHr. apply eval_record_image_tallies. exact H. }
  apply Hgen. reflexivity.
Qed.

(** When no image of the run file is in the centre map, the anatomy view
    stays empty: no prediction, no target, all counts 0, and the two
    anatomy scores of [eval_run] are NaN. *)
Theorem eval_run_unknown_images (centre_map : CentreMap) (data : RunFile) :
  Forall (fun e => centre_map !! file_name e = None) data ->
  anatomy_tallies (AnatomyRun.eval_loop centre_map data) = ([], [], 0, 0, 0)
  /\ forall m, AnatomyRun.eval_run centre_map data = Some m ->
               AnatomyRun.anat_acc m = NaN /\ AnatomyRun.anat_f1 m = NaN
               /\ AnatomyRun.anat_total m = 0.
Proof.
  intros Hall.
  assert (Hgen : forall st,
            anatomy_tallies
              (fold_left
                 (fun st entry =>
                    fold_left
                      (AnatomyRun.eval_record centre_map (file_name entry))
                      (results_call entry) st) data st)
            = anatomy_tallies st).
  { induction Hall as [|e data He _ IH]; intros st; simpl; [reflexivity|].
    rewrite IH. clear IH. revert st.
    induction (results_call e) as [|r rs IHr]; intros st; simpl; [reflexivity|].
    rewrite IHr. unfold AnatomyRun.eval_record.
    destruct (AnatomyRun.in_subset (question r)); [|reflexivity].
    unfold AnatomyRun.anatomy_view, centres_of. rewrite He.
    apply AnatomyRunFacts.image_view_anatomy. }
  pose proof (Hgen AnatomyRun.init_state) as H.
  fold (AnatomyRun.eval_loop centre_map data) in H.
  split; [exact H|].
  intros m Hm. unfold AnatomyRun.eval_run in Hm.
  unfold anatomy_tallies in H. simpl in H. injection H as H1 H2 H3 H4 H5.
  rewrite H1, H2, H3, H4, H5 in Hm. simpl in Hm.
  repeat match type of Hm with
         | match ?x with Some _ => _ | None => _ end = _ =>
             destruct x; [|discriminate Hm]
         end.
  injection Hm as <-. simpl. auto.
Qed.

Lemma eval_run_unknown_images_witness :
  anatomy_tallies
    (AnatomyRun.eval_loop liver_spleen_centres
       [ {| file_name := py "other.png"; results_call := [liver_spleen] |} ])
  = ([], [], 0, 0, 0).
Proof.
  refine (proj1 (eval_run_unknown_images liver_spleen_centres
                   [ {| file_name := py "other.png";
                        results_call := [liver_spleen] |} ] _)).
  constructor; [vm_compute; reflexivity | constructor].
Defined.

(** ** More on the loop of the image script *)

Lemma eval_calls_cons (st : ImageRun.EvalState) (r : QARecord)
  (rs : list QARecord) :
  ImageRun.eval_calls (Some st) (r :: rs)
  = ImageRun.eval_calls (ImageRun.eval_call st r) rs.
Proof. reflexivity. Qed.

Lemma eval_calls_some (st0 : option ImageRun.EvalState) (rs : list QARecord)
  (st' : ImageRun.EvalState) :
  ImageRun.eval_calls st0 rs = Some st' -> exists st, st0 = Some st.
Proof.
  destruct st0 as [st|]; [intros _; exists st; reflexivity|].
  rewrite ImageRunFacts.eval_calls_none. discriminate.
Qed.

(** A record without an expected answer makes [evaluate_run] fail,
    wherever it stands in the run file. *)
Theorem evaluate_run_missing_expected (data : RunFile) (r : QARecord) :
  In r (records data) -> expected_answer r = None ->
  ImageRun.evaluate_run data = None.
Proof.
  intros Hin Hr. unfold ImageRun.evaluate_run.
  rewrite ImageRunFacts.evaluate_loop_records.
  apply in_split in Hin. destruct Hin as (a & b & ->).
  rewrite ImageRunFacts.eval_calls_app.
  destruct (ImageRun.eval_calls (Some ImageRun.init_state) a) as [st|].
  - rewrite eval_calls_cons. unfold ImageRun.eval_call. rewrite Hr.
    rewrite ImageRunFacts.eval_calls_none. reflexivity.
  - rewrite ImageRunFacts.eval_calls_none. reflexivity.
Qed.

Lemma evaluate_run_missing_expected_witness :
  ImageRun.evaluate_run
    [ {| file_name := py "a.png";
         results_call :=
           [answered "1" 1;
            {| question := []; model_answer := py "1"; expected_answer := None;
               entire_prompt := []; object1_name := None;
               object2_name := None |}] |} ]
  = None.
Proof.
  refine (evaluate_run_missing_expected _
            {| question := []; model_answer := py "1"; expected_answer := None;
               entire_prompt := []; object1_name := None;
               object2_name := None |} _ eq_refl).
  right. left. reflexivity.
Defined.

Lemma combine_snoc {S T : Type} (a : list S) (b : list T) (x : S) (y : T) :
  length a = length b -> combine (a ++ [x]) (b ++ [y]) = combine a b ++ [(x, y)].
Proof.
  revert b. induction a as [|u a IH]; intros [|v b] H; simpl in *;
    try discriminate H; [reflexivity|].
  rewrite IH by lia. reflexivity.
Qed.

Lemma count_where_snoc (f : Z -> Z -> bool) (targs preds : list Z) (t p : Z) :
  length targs = length preds ->
  count_where f (targs ++ [t]) (preds ++ [p])
  = count_where f targs preds + int_of_bool (f t p).
Proof.
  intros Hlen. unfold count_where.
  rewrite combine_snoc by exact Hlen.
  rewrite List.filter_app, length_app. simpl. destruct (f t p); reflexivity.
Qed.

Lemma count_where_le (f : Z -> Z -> bool) (targs preds : list Z) :
  count_where f targs preds <= length targs.
Proof.
  unfold count_where.
  etransitivity; [apply List.filter_length_le|].
  rewrite length_combine. apply Nat.le_min_l.
Qed.

Lemma eval_call_counts (done : list QARecord) (st st1 : ImageRun.EvalState)
  (r : QARecord) :
  loop_counts done st -> ImageRun.eval_call st r = Some st1 ->
  loop_counts (done ++ [r]) st1.
Proof.
  intros (Ht & Hp & Hc & Hsum) Hstep.
  assert (Hlen : length (ImageRun.targs st) = length (ImageRun.preds st)).
  { apply (f_equal (@length (option Z))) in Ht. rewrite !length_map in Ht. lia. }
  unfold ImageRun.eval_call in Hstep.
  destruct (expected_answer r) as [exp|] eqn:Er; [|discriminate Hstep].
  destruct (ImageRun.predicted r exp) as [pred is_unsure].
  injection Hstep as <-. unfold loop_counts; simpl.
  rewrite !List.map_app, !length_app, Ht. simpl. rewrite Er.
  rewrite (count_where_snoc Z.eqb _ _ exp pred Hlen), (Z.eqb_sym exp pred).
  repeat split; try lia.
  destruct (Z.eqb pred exp); simpl; lia.
Qed.

Lemma eval_calls_counts (rs done : list QARecord)
  (st st' : ImageRun.EvalState) :
  loop_counts done st -> ImageRun.eval_calls (Some st) rs = Some st' ->
  loop_counts (done ++ rs) st'.
Proof.
  revert done st. induction rs as [|r rs IH]; intros done st Hinv Hrun.
  - simpl in Hrun. injection Hrun as <-. rewrite app_nil_r. exact Hinv.
  - rewrite eval_calls_cons in Hrun.
    destruct (eval_calls_some _ _ _ Hrun) as [st1 Hst1].
    rewrite Hst1 in Hrun.
    replace (done ++ r :: rs) with ((done ++ [r]) ++ rs)
      by (rewrite <- app_assoc; reflexivity).
    apply (IH _ st1); [|exact Hrun].
    apply (eval_call_counts done st); assumption.
Qed.

Lemma evaluate_loop_counts (data : RunFile) (st : ImageRun.EvalState) :
  ImageRun.evaluate_loop data = Some st -> loop_counts (records data) st.
Proof.
  rewrite ImageRunFacts.evaluate_loop_records. intros H.
  apply (eval_calls_counts (records data) [] ImageRun.init_state st);
    [|exact H].
  unfold loop_counts. simpl. auto.
Qed.

Lemma evaluate_run_some (data : RunFile) (m : ImageRun.RunMetrics) :
  ImageRun.evaluate_run data = Some m ->
  exists st f,
    ImageRun.evaluate_loop data = Some st
    /\ f1_score (ImageRun.targs st) (ImageRun.preds st) = Some f
    /\ m = {| ImageRun.accuracy :=
                accuracy_score (ImageRun.targs st) (ImageRun.preds st);
              ImageRun.f1 := f;
              ImageRun.correct_count := ImageRun.correct st;
              ImageRun.incorrect_count := ImageRun.incorrect st;
              ImageRun.unsure_count := ImageRun.unsure st |}.
Proof.
  unfold ImageRun.evaluate_run.
  destruct (ImageRun.evaluate_loop data) as [st|]; [|discriminate].
  destruct (f1_score _ _) as [f|] eqn:Ef; [|discriminate].
  intros H; injection H as <-. exists st, f.
  split; [reflexivity|]. split; [exact Ef | reflexivity].
Qed.

(** The accuracy that [evaluate_run] reports is the correct count over the
    number of records, and NaN for a run without records; it lies between
    0 and 1. *)
Theorem evaluate_run_accuracy (data : RunFile) (m : ImageRun.RunMetrics) :
  ImageRun.evaluate_run data = Some m ->
  ImageRun.correct_count m + ImageRun.incorrect_count m = length (records data)
  /\ ImageRun.accuracy m =
       match length (records data) with
       | 0 => NaN
       | S _ => Num (Qred (Z.of_nat (ImageRun.correct_count m)
                           # Pos.of_nat (length (records data))))
       end
  /\ forall q, ImageRun.accuracy m = Num q -> (0 <= q <= 1)%Q.
Proof.
  intros Hm. destruct (evaluate_run_some data m Hm) as (st & f & Hst & _ & ->).
  destruct (evaluate_loop_counts data st Hst) as (Ht & Hp & Hc & Hsum).
  assert (Hlen : length (ImageRun.targs st) = length (records data)).
  { apply (f_equal (@length (option Z))) in Ht. rewrite !length_map in Ht.
    exact Ht. }
  simpl. split; [exact Hsum|].
  assert (Hacc : accuracy_score (ImageRun.targs st) (ImageRun.preds st) =
                 match length (records data) with
                 | 0 => NaN
                 | S _ => Num (Qred (Z.of_nat (ImageRun.correct st)
                                     # Pos.of_nat (length (records data))))
                 end).
  { unfold accuracy_score. rewrite <- Hlen, Hc.
    destruct (ImageRun.targs st); reflexivity. }
  split; [exact Hacc|].
  intros q Hq. rewrite Hacc in Hq.
  destruct (length (records data)) as [|n] eqn:En; [discriminate Hq|].
  injection Hq as <-. rewrite Qred_correct.
  unfold Qle. simpl. split; [lia|].
  rewrite Z.mul_1_r, Z.mul_1_l.
  assert (Hpos : Z.pos (Pos.of_nat (S n)) = Z.of_nat (S n)).
  { rewrite <- positive_nat_Z, Nat2Pos.id by discriminate. reflexivity. }
  rewrite Hpos. apply Nat2Z.inj_le. lia.
Qed.

Lemma evaluate_run_accuracy_witness :
  exists m,
    ImageRun.evaluate_run
      [ {| file_name := py "a.png";
           results_call := [answered "1" 1; hard_to_tell; answered "No" 0] |} ]
    = Some m
    /\ ImageRun.accuracy m = Num (2 # 3).
Proof.
  eexists. split; [vm_compute; reflexivity|].
  match goal with
  | |- ImageRun.accuracy ?m = _ =>
      destruct (evaluate_run_accuracy
                  [ {| file_name := py "a.png";
                       results_call :=
                         [answered "1" 1; hard_to_tell; answered "No" 0] |} ]
                  m ltac:(vm_compute; reflexivity)) as (_ & H & _)
  end.
  rewrite H. vm_compute. reflexivity.
Defined.

(** ** The F1 score of a run *)

Lemma count_where_mono (f g : Z -> Z -> bool) (targs preds : list Z) :
  (forall t p, f t p = true -> g t p = true) ->
  count_where f targs preds <= count_where g targs preds.
Proof.
  intros Hfg. unfold count_where.
  induction (combine targs preds) as [|[t p] l IH]; simpl; [lia|].
  destruct (f t p) eqn:Ef; simpl.
  - rewrite (Hfg t p Ef). simpl. lia.
  - destruct (g t p); simpl; lia.
Qed.

Lemma count_where_zero (f : Z -> Z -> bool) (targs preds : list Z) :
  (forall t p, In t targs -> f t p = false) -> count_where f targs preds = 0.
Proof.
  intros Hf. unfold count_where.
  assert (Hin : forall tp, In tp (combine targs preds) -> In (fst tp) targs).
  { intros [t p] H. apply in_combine_l in H. exact H. }
  induction (combine targs preds) as [|[t p] l IH]; simpl; [reflexivity|].
  rewrite (Hf t p) by (apply (Hin (t, p)); left; reflexivity).
  apply IH. intros tp H. apply Hin. right. exact H.
Qed.

Lemma Qred_zero (p : positive) : Qred (0 # p) = 0%Q.
Proof. apply (Qred_complete (0 # p) 0). reflexivity. Qed.

Lemma ratio0_unit (num den : nat) :
  num <= den -> (0 <= ratio0 num den <= 1)%Q.
Proof.
  intros H. unfold ratio0. destruct (den =? 0) eqn:E.
  - split; [apply Qle_refl | discriminate].
  - apply Nat.eqb_neq in E. rewrite Qred_correct. unfold Qle. simpl.
    split; [lia|]. rewrite Z.mul_1_r, Z.mul_1_l.
    rewrite <- positive_nat_Z, Nat2Pos.id by exact E.
    apply Nat2Z.inj_le. exact H.
Qed.

(** The F1 score that [evaluate_run] reports is a number between 0 and 1,
    never NaN, and it is 0 when no record has the expected answer 1,
    whatever the model answered. *)
Theorem evaluate_run_f1 (data : RunFile) (m : ImageRun.RunMetrics) :
  ImageRun.evaluate_run data = Some m ->
  (exists q, ImageRun.f1 m = Num q /\ (0 <= q <= 1)%Q)
  /\ ((forall r, In r (records data) -> expected_answer r <> Some 1%Z) ->
      ImageRun.f1 m = Num 0).
Proof.
  intros Hm. destruct (evaluate_run_some data m Hm) as (st & f & Hst & Hf & ->).
  simpl. unfold f1_score in Hf.
  destruct (_ || _) in Hf; [discriminate Hf|].
  injection Hf as <-. split.
  - eexists. split; [reflexivity|]. apply ratio0_unit.
    pose proof (count_where_mono (fun t p => Z.eqb t 1 && Z.eqb p 1)
                  (fun t _ => Z.eqb t 1) (ImageRun.targs st) (ImageRun.preds st)) as H1.
    pose proof (count_where_mono (fun t p => Z.eqb t 1 && Z.eqb p 1)
                  (fun _ p => Z.eqb p 1) (ImageRun.targs st) (ImageRun.preds st)) as H2.
    assert (count_where (fun t p => Z.eqb t 1 && Z.eqb p 1)
              (ImageRun.targs st) (ImageRun.preds st)
            <= count_where (fun t _ => Z.eqb t 1)
                 (ImageRun.targs st) (ImageRun.preds st)).
    { apply H1. intros t p Htp. apply andb_true_iff in Htp. apply Htp. }
    assert (count_where (fun t p => Z.eqb t 1 && Z.eqb p 1)
              (ImageRun.targs st) (ImageRun.preds st)
            <= count_where (fun _ p => Z.eqb p 1)
                 (ImageRun.targs st) (ImageRun.preds st)).
    { apply H2. intros t p Htp. apply andb_true_iff in Htp. apply Htp. }
    lia.
  - intros Hno. destruct (evaluate_loop_counts data st Hst) as (Ht & _).
    rewrite (count_where_zero (fun t p => Z.eqb t 1 && Z.eqb p 1)).
    + unfold ratio0. simpl. destruct (_ =? 0); [reflexivity|].
      rewrite Qred_zero. reflexivity.
    + intros t p Hin. destruct (Z.eqb t 1) eqn:E; [|reflexivity].
      apply Z.eqb_eq in E. subst t. exfalso.
      assert (Hs : In (Some 1%Z) (List.map expected_answer (records data))).
      { rewrite <- Ht. apply in_map. exact Hin. }
      apply in_map_iff in Hs. destruct Hs as (r & Hr & Hrin).
      exact (Hno r Hrin Hr).
Qed.

Lemma evaluate_run_f1_witness :
  exists m,
    ImageRun.evaluate_run
      [ {| file_name := py "a.png";
           results_call := [answered "0" 0; answered "No" 0] |} ] = Some m
    /\ ImageRun.accuracy m = Num 1 /\ ImageRun.f1 m = Num 0.
Proof.
  eexists. split; [vm_compute; reflexivity|]. split; [reflexivity|].
  match goal with
  | |- ImageRun.f1 ?m = _ =>
      apply (proj2 (evaluate_run_f1
                      [ {| file_name := py "a.png";
                           results_call := [answered "0" 0; answered "No" 0] |} ]
                      m ltac:(vm_compute; reflexivity)))
  end.
  intros r Hin. unfold records in Hin. simpl in Hin.
  destruct Hin as [<- | [<- | []]]; discriminate.
Defined.

(** ** The image view of the anatomy script and the image script *)

Lemma eval_record_same_view (centre_map : CentreMap) (fn : str)
  (ist ist' : ImageRun.EvalState) (ast : AnatomyRun.EvalState) (r : QARecord) :
  same_image_view ist ast -> in_subset_record r = true ->
  ImageRun.eval_call ist r = Some ist' ->
  same_image_view ist' (AnatomyRun.eval_record centre_map fn ast r).
Proof.
  unfold same_image_view. intros Hv Hsub Hstep.
  unfold AnatomyRun.eval_record. unfold in_subset_record in Hsub. rewrite Hsub.
  rewrite AnatomyRunFacts.anatomy_view_image.
  unfold ImageRun.eval_call in Hstep.
  destruct (expected_answer r) as [exp|] eqn:Er; [|discriminate Hstep].
  assert (Hp : AnatomyRun.predicted r = fst (ImageRun.predicted r exp)).
  { unfold AnatomyRun.predicted, ImageRun.predicted.
    rewrite parse_model_answer_agree, Er.
    destruct (fst (Image.parse_model_answer _ _ _)); reflexivity. }
  destruct (ImageRun.predicted r exp) as [pred is_unsure]. simpl in Hp.
  injection Hstep as <-.
  unfold image_tallies, AnatomyRun.image_view in *. rewrite Er, Hp. simpl.
  injection Hv as -> -> -> -> ->.
  f_equal. destruct (Z.eqb pred exp); simpl; lia.
Qed.

Lemma eval_records_same_view (centre_map : CentreMap) (fn : str)
  (rs : list QARecord) (ist ist' : ImageRun.EvalState)
  (ast : AnatomyRun.EvalState) :
  same_image_view ist ast -> Forall (fun r => in_subset_record r = true) rs ->
  ImageRun.eval_calls (Some ist) rs = Some ist' ->
  same_image_view ist'
    (fold_left (AnatomyRun.eval_record centre_map fn) rs ast).
Proof.
  revert ist ast. induction rs as [|r rs IH]; intros ist ast Hv Hall Hrun.
  - simpl in Hrun. injection Hrun as <-. exact Hv.
  - inversion Hall as [|? ? Hr Hrs]; subst.
    rewrite eval_calls_cons in Hrun.
    destruct (eval_calls_some _ _ _ Hrun) as [ist1 H1]. rewrite H1 in Hrun.
    simpl. apply (IH ist1); [|exact Hrs | exact Hrun].
    apply (eval_record_same_view centre_map fn ist); assumption.
Qed.

Lemma outer_loop_none (data : RunFile) :
  fold_left (fun st entry => ImageRun.eval_calls st (results_call entry)) data None
  = None.
Proof.
  induction data as [|e data IH]; simpl; [reflexivity|].
  rewrite ImageRunFacts.eval_calls_none. exact IH.
Qed.

(** On a run file whose questions all hold left or right, the image view
    of [eval_run] is what [evaluate_run] of the image script computes: the
    same predictions and targets, the same correct and incorrect counts,
    and, when there is a record, the same accuracy and F1. *)
Theorem image_view_is_image_script (centre_map : CentreMap) (data : RunFile)
  (m : ImageRun.RunMetrics) (am : AnatomyRun.RunMetrics) :
  Forall (fun r => in_subset_record r = true) (records data) ->
  ImageRun.evaluate_run data = Some m ->
  AnatomyRun.eval_run centre_map data = Some am ->
  AnatomyRun.img_correct am = ImageRun.correct_count m
  /\ AnatomyRun.img_incorrect am = ImageRun.incorrect_count m
  /\ AnatomyRun.img_total am = length (records data)
  /\ (records data <> [] ->
      AnatomyRun.img_acc am = ImageRun.accuracy m
      /\ AnatomyRun.img_f1 am = ImageRun.f1 m).
Proof.
  intros Hall Hm Ham.
  destruct (evaluate_run_some data m Hm) as (ist & f & Hist & Hf & ->).
  destruct (evaluate_loop_counts data ist Hist) as (Ht & _ & _ & Hsum).
  assert (Hv : same_image_view ist (AnatomyRun.eval_loop centre_map data)).
  { unfold AnatomyRun.eval_loop. unfold ImageRun.evaluate_loop in Hist.
    assert (Hgen : forall ist0 ast0,
              same_image_view ist0 ast0 ->
              fold_left
                (fun st entry => ImageRun.eval_calls st (results_call entry))
                data (Some ist0) = Some ist ->
              same_image_view ist
                (fold_left
                   (fun st entry =>
                      fold_left
                        (AnatomyRun.eval_record centre_map (file_name entry))
                        (results_call entry) st) data ast0)).
    { clear Hist Ht Hsum Hf Hm Ham. unfold records in Hall.
      induction data as [|e data IH]; intros ist0 ast0 Hv0 Hrun; simpl in *.
      - injection Hrun as <-. exact Hv0.
      - apply Forall_app in Hall. destruct Hall as [He Hd].
        destruct (ImageRun.eval_calls (Some ist0) (results_call e))
          as [ist1|] eqn:E1.
        + apply (IH Hd ist1); [|exact Hrun].
          apply (eval_records_same_view centre_map (file_name e)
                   (results_call e) ist0); assumption.
        + rewrite outer_loop_none in Hrun. discriminate Hrun. }
    apply (Hgen ImageRun.init_state AnatomyRun.init_state); [reflexivity|].
    exact Hist. }
  unfold same_image_view, image_tallies in Hv.
  injection Hv as Hp Htg Hc Hw Htot.
  unfold AnatomyRun.eval_run in Ham. rewrite Hp, Htg in Ham.
  destruct (AnatomyRun.guarded _ (AnatomyRun.anat_targs _) _) as [aa|];
    [|discriminate Ham].
  destruct (AnatomyRun.guarded f1_score (AnatomyRun.anat_targs _) _) as [af|];
    [|discriminate Ham].
  destruct (AnatomyRun.guarded _ (ImageRun.targs ist) _) as [ia|] eqn:Eia;
    [|discriminate Ham].
  destruct (AnatomyRun.guarded f1_score (ImageRun.targs ist) _) as [if1|] eqn:Eif;
    [|discriminate Ham].
  injection Ham as <-. simpl.
  split; [exact Hc|]. split; [exact Hw|]. split; [lia|].
  intros Hne.
  assert (Hnt : ImageRun.targs ist <> []).
  { intros E. rewrite E in Ht. simpl in Ht.
    destruct (records data); [congruence | discriminate Ht]. }
  unfold AnatomyRun.guarded in Eia, Eif.
  destruct (ImageRun.targs ist) as [|t ts] eqn:Et; [congruence|].
  injection Eia as <-. rewrite Hf in Eif. injection Eif as <-.
  split; reflexivity.
Qed.

Lemma image_view_is_image_script_witness :
  exists m am,
    ImageRun.evaluate_run
      [ {| file_name := py "img.png"; results_call := [liver_spleen] |} ] = Some m
    /\ AnatomyRun.eval_run liver_spleen_centres
         [ {| file_name := py "img.png"; results_call := [liver_spleen] |} ]
       = Some am
    /\ AnatomyRun.img_correct am = ImageRun.correct_count m.
Proof.
  eexists. eexists. split; [vm_compute; reflexivity|].
  split; [vm_compute; reflexivity|].
  match goal with
  | |- AnatomyRun.img_correct ?am = ImageRun.correct_count ?m =>
      apply (image_view_is_image_script liver_spleen_centres
               [ {| file_name := py "img.png"; results_call := [liver_spleen] |} ]
               m am)
  end.
  - repeat constructor.
  - vm_compute. reflexivity.
  - vm_compute. reflexivity.
Defined.

(** ** The order of the runs *)

Lemma Qsum_perm (x y : list Q) : Permutation x y -> (Qsum x == Qsum y)%Q.
Proof.
  induction 1 as [|a x y _ IH|a b x|x y z _ IH1 _ IH2]; simpl.
  - reflexivity.
  - rewrite IH. reflexivity.
  - ring.
  - rewrite IH1. exact IH2.
Qed.

Lemma Qlen_perm (x y : list Q) : Permutation x y -> Qlen x = Qlen y.
Proof. intros H. unfold Qlen. rewrite (Permutation_length H). reflexivity. Qed.

Lemma mean_perm (x y : list Q) : Permutation x y -> mean x = mean y.
Proof.
  intros H. unfold mean.
  destruct x as [|a x], y as [|b y].
  - reflexivity.
  - apply Permutation_nil in H. discriminate H.
  - apply Permutation_sym, Permutation_nil in H. discriminate H.
  - f_equal. apply Qred_complete.
    rewrite (Qsum_perm _ _ H), (Qlen_perm _ _ H). reflexivity.
Qed.

Lemma sum_sq_dev_perm (m : Q) (x y : list Q) :
  Permutation x y -> (sum_sq_dev m x == sum_sq_dev m y)%Q.
Proof.
  intros H. unfold sum_sq_dev. apply Qsum_perm.
  apply Permutation_map. exact H.
Qed.

Lemma variance_perm (x y : list Q) : Permutation x y -> variance x = variance y.
Proof.
  intros H. unfold variance.
  rewrite (Permutation_length H), (mean_perm _ _ H).
  destruct (length y <? 2); [reflexivity|].
  destruct (mean y) as [m|]; [|reflexivity].
  f_equal. apply Qred_complete.
  rewrite (sum_sq_dev_perm m _ _ H), (Qlen_perm _ _ H). reflexivity.
Qed.

Lemma safe_stdev_perm (x y : list Q) :
  Permutation x y -> safe_stdev x = safe_stdev y.
Proof.
  intros H. unfold safe_stdev, stdev.
  rewrite (Permutation_length H), (variance_perm _ _ H). reflexivity.
Qed.

Lemma numbers_perm (l l' : list score) :
  Permutation l l' -> same_numbers (numbers l) (numbers l').
Proof.
  induction 1 as [|a l l' _ IH|a b l|l1 l2 l3 _ IH1 _ IH2]; simpl.
  - constructor.
  - destruct a as [|q]; [exact I|]. unfold same_numbers in *.
    destruct (numbers l), (numbers l'); try contradiction; [|exact I].
    constructor. exact IH.
  - destruct a as [|q], b as [|q']; try exact I.
    destruct (numbers l); [|exact I]. apply perm_swap.
  - unfold same_numbers in *.
    destruct (numbers l1), (numbers l2), (numbers l3); try contradiction;
      [|exact I].
    eapply Permutation_trans; eassumption.
Qed.

(** The aggregate of [process_runs] does not depend on the order of the
    runs. *)
Theorem aggregate_order_independent (rms rms' : list ImageRun.RunMetrics) :
  Permutation rms rms' ->
  ImageAggregate.aggregate rms = ImageAggregate.aggregate rms'.
Proof.
  intros H. unfold ImageAggregate.aggregate.
  pose proof (numbers_perm _ _ (Permutation_map ImageRun.accuracy H)) as Ha.
  pose proof (numbers_perm _ _ (Permutation_map ImageRun.f1 H)) as Hf.
  unfold same_numbers in Ha, Hf.
  destruct (numbers (List.map ImageRun.accuracy rms)) as [a|],
    (numbers (List.map ImageRun.accuracy rms')) as [a'|]; try contradiction;
    [|reflexivity].
  destruct (numbers (List.map ImageRun.f1 rms)) as [f|],
    (numbers (List.map ImageRun.f1 rms')) as [f'|]; try contradiction;
    [|reflexivity].
  rewrite (mean_perm _ _ Ha), (mean_perm _ _ Hf),
    (safe_stdev_perm _ _ Ha), (safe_stdev_perm _ _ Hf).
  reflexivity.
Qed.

Lemma aggregate_order_independent_witness :
  ImageAggregate.aggregate
    [run_with (8 # 10) (1 # 2); run_with (9 # 10) (1 # 3)]
  = ImageAggregate.aggregate
      [run_with (9 # 10) (1 # 3); run_with (8 # 10) (1 # 2)].
Proof.
  apply aggregate_order_independent. apply perm_swap.
Defined.

(** ** Grouping the run files *)

Section GreedyFacts.
Context {A : Type}.

(** A greedy capturing repetition whose class holds to the end of the
    text gives the match with the longest group: when the rest of the
    pattern matches after [g] and fails for every longer group, the group
    is [g]. *)
Lemma r_star_cap_last cls (k : str -> K A) (acc g rest : str) (x : A) :
  forallb cls (g ++ rest) = true ->
  (forall p v, rest = p ++ v -> p <> [] -> k (acc ++ g ++ p) v = None) ->
  k (acc ++ g) rest = Some x ->
  r_star_cap cls k acc (g ++ rest) = Some x.
Proof.
  revert acc. induction g as [|c g IH]; intros acc Hcls Hfail Hk.
  - simpl app. rewrite app_nil_r in Hk. simpl in Hfail.
    assert (Hgen : forall acc', (forall p v, rest = p ++ v -> p <> [] ->
                                   k (acc' ++ p) v = None) ->
                     r_star_cap cls k acc' rest = k acc' rest).
    { clear Hfail Hk acc.
      induction rest as [|c rest IHr]; intros acc Hfail; [reflexivity|].
      simpl in Hcls. apply andb_true_iff in Hcls. destruct Hcls as [Hc Hr].
      simpl. rewrite Hc, (IHr Hr).
      + rewrite (Hfail [c] rest); [reflexivity | reflexivity | discriminate].
      + intros p v -> Hp. rewrite <- app_assoc.
        apply (Hfail (c :: p) v); [reflexivity | discriminate]. }
    rewrite (Hgen acc Hfail). exact Hk.
  - simpl in Hcls. apply andb_true_iff in Hcls. destruct Hcls as [Hc Hr].
    simpl. rewrite Hc, (IH (acc ++ [c]) Hr); [reflexivity | |].
    + intros p v Hv Hp. rewrite <- app_assoc. simpl. apply Hfail; assumption.
    + rewrite <- app_assoc. exact Hk.
Qed.
End GreedyFacts.

Lemma r_lit_head_fail {A : Type} (ci : bool) (a : ascii) (t : str) (k : K A)
  (c : ascii) (s : str) :
  Ascii.eqb a (if ci then lower_char c else c) = false ->
  r_lit ci (a :: t) k (c :: s) = None.
Proof.
  intros H. unfold r_lit, r_tok.
  assert (E : starts_with (a :: t) (if ci then lower (c :: s) else c :: s)
              = false).
  { destruct ci; simpl; rewrite H; reflexivity. }
  rewrite E. reflexivity.
Qed.

Lemma basename_from_plain (cur p : str) :
  ~ In "/"%char p -> basename_from cur p = rev cur ++ p.
Proof.
  revert cur. induction p as [|c p IH]; intros cur Hno; simpl.
  - rewrite app_nil_r. reflexivity.
  - destruct (Ascii.eqb c "/") eqn:E.
    + apply Ascii.eqb_eq in E. exfalso. apply Hno. left. exact E.
    + rewrite IH by (intros H; apply Hno; right; exact H).
      simpl. rewrite <- app_assoc. reflexivity.
Qed.

Lemma basename_after_slash (dir name : str) :
  ~ In "/"%char name -> basename (dir ++ py "/" ++ name) = name.
Proof.
  intros Hno. unfold basename. generalize (@nil ascii).
  induction dir as [|c dir IH]; intros cur; simpl.
  - apply (basename_from_plain [] name Hno).
  - destruct (Ascii.eqb c "/"); apply IH.
Qed.

Lemma digit_facts (d : ascii) :
  is_digit d = true ->
  not_newline d = true /\ d <> "/"%char
  /\ Ascii.eqb "_" (lower_char d) = false
  /\ Ascii.eqb "r" (lower_char d) = false
  /\ Ascii.eqb "." (lower_char d) = false.
Proof.
  destruct d as [[] [] [] [] [] [] [] []]; vm_compute; intros H;
    try discriminate H; repeat split; discriminate.
Qed.

(** No proper end of the suffix of a run file starts the suffix again. *)
Lemma run_suffix_unique (digits p v : str) :
  digits <> [] -> forallb is_digit digits = true ->
  run_suffix digits = p ++ v -> p <> [] ->
  starts_with (py "_run_") (lower v) = false.
Proof.
  intros Hne Hd Hsplit Hp. unfold run_suffix in Hsplit.
  assert (Hhead : forall t w, digits ++ py ".json" = t ++ w ->
            match w with
            | c :: _ => Ascii.eqb "_" (lower_char c) = false
            | [] => True
            end).
  { intros t w Hw. destruct w as [|c w]; [exact I|].
    assert (Hin : In c (digits ++ py ".json")).
    { rewrite Hw. apply in_or_app. right. left. reflexivity. }
    apply in_app_or in Hin. destruct Hin as [Hin | Hin].
    - rewrite forallb_forall in Hd. apply (digit_facts c (Hd c Hin)).
    - simpl in Hin.
      repeat (destruct Hin as [<- | Hin]; [reflexivity|]). destruct Hin. }
  destruct digits as [|d ds]; [congruence|].
  simpl in Hd. apply andb_true_iff in Hd. destruct Hd as [Hd0 _].
  destruct (digit_facts d Hd0) as (_ & _ & _ & Hr & _).
  destruct p as [|c1 [|c2 [|c3 [|c4 [|c5 t]]]]]; [congruence|..];
    simpl in Hsplit; injection Hsplit as; subst; try reflexivity.
  - cbn [starts_with lower List.map py list_ascii_of_string app].
    rewrite Hr. rewrite andb_false_r. reflexivity.
  - match goal with
    | H : _ = t ++ v |- _ => specialize (Hhead t v H)
    end.
    destruct v as [|c v]; [reflexivity|].
    cbn [starts_with lower List.map py list_ascii_of_string].
    rewrite Hhead. reflexivity.
Qed.

(** The base name of a run file is found again: for a base without slash
    and line feed and a number of one digit or more, the file
    base_run_number.json, in any directory, has this base. *)
Theorem base_of_run_file (dir base digits : str) :
  ~ In "/"%char base -> forallb not_newline base = true ->
  digits <> [] -> forallb is_digit digits = true ->
  base_of (base ++ run_suffix digits) = Some base
  /\ base_of (dir ++ py "/" ++ base ++ run_suffix digits) = Some base.
Proof.
  intros Hslash Hnl Hne Hd.
  assert (Hname : ~ In "/"%char (base ++ run_suffix digits)).
  { intros H. apply in_app_or in H. destruct H as [H | H]; [exact (Hslash H)|].
    unfold run_suffix in H. apply in_app_or in H. destruct H as [H | H].
    - simpl in H. repeat (destruct H as [H | H]; [discriminate H|]). destruct H.
    - apply in_app_or in H. destruct H as [H | H].
      + rewrite forallb_forall in Hd.
        destruct (digit_facts _ (Hd _ H)) as (_ & Hx & _). congruence.
      + simpl in H. repeat (destruct H as [H | H]; [discriminate H|]). destruct H. }
  assert (Hmatch : run_pattern (base ++ run_suffix digits) = Some base).
  { unfold run_pattern. apply r_star_cap_last.
    - rewrite forallb_app, Hnl. unfold run_suffix. rewrite !forallb_app.
      simpl. rewrite !andb_true_r.
      apply forallb_forall. intros c Hc. rewrite forallb_forall in Hd.
      apply (digit_facts c (Hd c Hc)).
    - intros p v Hsplit Hp. unfold r_lit. cbn [r_tok].
      rewrite (run_suffix_unique digits p v Hne Hd Hsplit Hp). reflexivity.
    - simpl app. unfold run_suffix, r_lit. simpl.
      destruct digits as [|d ds]; [congruence|].
      simpl in Hd. apply andb_true_iff in Hd. destruct Hd as [Hd0 Hds].
      simpl. rewrite Hd0.
      rewrite (r_star_run is_digit _ ds (py ".json")).
      + reflexivity.
      + exact Hds.
      + intros p v -> Hv. destruct v as [|c v]; [congruence|].
        rewrite forallb_app in Hds. apply andb_true_iff in Hds.
        destruct Hds as [_ Hv']. simpl in Hv'. apply andb_true_iff in Hv'.
        destruct Hv' as [Hc _].
        destruct (digit_facts c Hc) as (_ & _ & _ & _ & Hdot).
        apply (r_lit_head_fail true "."%char (py "json")). exact Hdot.
      + reflexivity. }
  unfold base_of, re_match. split.
  - unfold basename. rewrite (basename_from_plain [] _ Hname). exact Hmatch.
  - rewrite (basename_after_slash dir _ Hname). exact Hmatch.
Qed.

Lemma base_of_run_file_witness :
  base_of (py "./answers/gpt4o_RQ1_run_2.json") = Some (py "gpt4o_RQ1").
Proof.
  exact (proj2 (base_of_run_file (py "./answers") (py "gpt4o_RQ1") (py "2")
                  ltac:(simpl; intuition discriminate) eq_refl
                  ltac:(discriminate) eq_refl)).
Defined.
